(** * pladder/snusk.py: the fragment store [SnuskDb] and its composer

    A shallow embedding of [src/pladder/snusk.py].

    - The two SQLite tables are lists of rows in insertion order.  Rows are
      never deleted, so the implicit [rowid] of a row is its 1-based position.
    - Text values are [string]s, compared byte by byte.  A score is a value
      of a column of INTEGER affinity: a signed 64-bit integer, or a REAL (a
      double) once an addition has overflowed.  A delta is a Python [int];
      one that does not fit 64 bits cannot be bound to a statement.
    - Python exceptions are the [Raise] case of [result].
    - [str.upper], which [taste] applies, is Python's own and is a parameter;
      the migration of legacy tables in [_setup] is left out.
    - The two random sources are explicit: the outcome of each
      [ORDER BY RANDOM() LIMIT 1] and of each [random.choice] is a natural
      number reduced modulo the number of candidates.  A common table
      expression that is referenced more than once is materialized once per
      statement, so the four [IN random_noun] tests of [_random_parts] see
      the same row.
    - A query without [ORDER BY] that needs the key columns only is answered
      from the index of the [UNIQUE] constraint, in key order. *)

From Stdlib Require Import String Ascii List ZArith Lia Bool Arith.
From Stdlib Require Import Permutation Sorted.
From Stdlib Require OrderedTypeEx.
Import ListNotations.
Local Open Scope string_scope.
Local Open Scope nat_scope.
Local Open Scope list_scope.

(** ** Exceptions *)

Inductive exn : Type :=
| TypeError
| IndexError
| IntegrityError
| OverflowError.

Inductive result (A : Type) : Type :=
| Ok (a : A)
| Raise (e : exn).

Arguments Ok {A} a.
Arguments Raise {A} e.

Definition bind {A B : Type} (m : result A) (f : A -> result B) : result B :=
  match m with
  | Ok a => f a
  | Raise e => Raise e
  end.

Notation "x <- m ;; k" := (bind m (fun x => k))
  (at level 61, m at next level, right associativity).

(** ** Data model *)

(* Words with scores lower than or equal to this will not be included in
   random picks *)
Definition SKIP_SCORE : Z := -3.

(** The numbers of a column of INTEGER affinity.  Every double that the
    program computes is a whole number: [Real r] is the double of value [r]. *)
Inductive sql_number : Type :=
| Integer (i : Z)
| Real (r : Z).

Definition score_value (n : sql_number) : Z :=
  match n with
  | Integer i => i
  | Real r => r
  end.

Definition SMALLEST_INT64 : Z := - 2 ^ 63.
Definition LARGEST_INT64 : Z := 2 ^ 63 - 1.

Definition is_int64 (z : Z) : bool :=
  (SMALLEST_INT64 <=? z)%Z && (z <=? LARGEST_INT64)%Z.

(** The double nearest to the whole number [z], ties to even: [z] itself
    below 2^53, else [z] rounded to 53 significant bits.  (The exponent range
    of a double is out of reach: a double of 2^117 or more absorbs every
    64-bit addend.) *)
Definition double_of (z : Z) : Z :=
  let a := Z.abs z in
  if (a <? 2 ^ 53)%Z then z
  else
    let e := (Z.log2 a - 52)%Z in
    let q := (a / 2 ^ e)%Z in
    let rest := (a mod 2 ^ e)%Z in
    let half := (2 ^ (e - 1))%Z in
    let q' := if (half <? rest)%Z || ((rest =? half)%Z && Z.odd q)
              then (q + 1)%Z else q in
    (Z.sgn z * (q' * 2 ^ e))%Z.

(** A REAL stored in a column of INTEGER affinity becomes an INTEGER when
    that loses nothing and the integer is neither the smallest nor the
    largest one. *)
Definition integer_affinity (r : Z) : sql_number :=
  if (SMALLEST_INT64 <? r)%Z && (r <? LARGEST_INT64)%Z then Integer r
  else Real r.

(** [score + delta] as the [UPDATE] stores it: 64-bit integer addition, done
    on doubles when it overflows or when the score is a REAL already. *)
Definition sql_add (score : sql_number) (delta : Z) : sql_number :=
  match score with
  | Integer i =>
      if is_int64 (i + delta) then Integer (i + delta)
      else integer_affinity (double_of (double_of i + double_of delta))
  | Real r => integer_affinity (double_of (r + double_of delta))
  end.

(** Binding a Python [int] to a statement parameter: [OverflowError] when it
    does not fit 64 bits. *)
Definition bind_int (delta : Z) : result Z :=
  if is_int64 delta then Ok delta else Raise OverflowError.

(** A row of [nouns (prefix TEXT, suffix TEXT, score INTEGER DEFAULT 0)]. *)
Record noun_row : Type := Noun {
  prefix : string;
  suffix : string;
  noun_score : sql_number
}.

(** A row of [inbetweenies (inbetweeny TEXT UNIQUE, score INTEGER DEFAULT 0)]. *)
Record inbetweeny_row : Type := Inbetweeny {
  inbetweeny : string;
  inbetweeny_score : sql_number
}.

Record SnuskDb : Type := Db {
  nouns : list noun_row;
  inbetweenies : list inbetweeny_row
}.

(** ** The SQL fragments used by the queries *)

Section Table.
Context {R : Type}.

(** The rows of a table, each with its rowid. *)
Definition with_rowid (t : list R) : list (nat * R) :=
  combine (seq 1 (length t)) t.

(** [SELECT rowid FROM t WHERE cond], in table order. *)
Definition select_rowid (cond : R -> bool) (t : list R) : list nat :=
  map fst (filter (fun ir => cond (snd ir)) (with_rowid t)).

(** [FROM t x WHERE x.rowid IN ids]. *)
Definition rowid_in (ids : list nat) (t : list R) : list R :=
  map snd (filter (fun ir => existsb (Nat.eqb (fst ir)) ids) (with_rowid t)).
End Table.

(** [... ORDER BY RANDOM() LIMIT 1]: one of the candidates, none when there
    is no candidate.  [k] is the random outcome. *)
Definition order_by_random_limit_1 {A : Type} (k : nat) (l : list A) : list A :=
  match l with
  | [] => []
  | _ :: _ => firstn 1 (skipn (k mod length l) l)
  end.

(** [cursor.fetchone()]: the first row of the result, [None] without one. *)
Definition fetchone {A : Type} (rows : list A) : option A := hd_error rows.

(** [list(row)]: [list(None)] raises [TypeError]. *)
Definition list_of_row {A : Type} (row : option (list A)) : result (list A) :=
  match row with
  | Some r => Ok r
  | None => Raise TypeError
  end.

(** ** [_random_parts] *)

(** [WHERE score > :skip_score]. *)
Definition eligible_noun (r : noun_row) : bool :=
  (SKIP_SCORE <? score_value (noun_score r))%Z.
Definition eligible_inbetweeny (r : inbetweeny_row) : bool :=
  (SKIP_SCORE <? score_value (inbetweeny_score r))%Z.

(** The CTE [random_noun], evaluated with random outcome [k]. *)
Definition random_noun (k : nat) (db : SnuskDb) : list nat :=
  order_by_random_limit_1 k (select_rowid eligible_noun (nouns db)).

(** The CTE [random_inbetweeny], evaluated with random outcome [k]. *)
Definition random_inbetweeny (k : nat) (db : SnuskDb) : list nat :=
  order_by_random_limit_1 k (select_rowid eligible_inbetweeny (inbetweenies db)).

(** The random outcomes of one execution of the query: one per CTE, each of
    which is evaluated once. *)
Record sql_random : Type := SqlRandom {
  rnd_noun : nat;
  rnd_inbetweeny : nat
}.

(** The result set of the [SELECT a.prefix, b.suffix, c.inbetweeny, d.prefix,
    e.suffix FROM nouns a, nouns b, inbetweenies c, nouns d, nouns e WHERE ...],
    all four noun aliases tested against the one materialized [random_noun]. *)
Definition select_random_parts (r : sql_random) (db : SnuskDb)
  : list (list string) :=
  let random_noun := random_noun (rnd_noun r) db in
  let random_inbetweeny := random_inbetweeny (rnd_inbetweeny r) db in
  flat_map (fun a =>
  flat_map (fun b =>
  flat_map (fun c =>
  flat_map (fun d =>
  flat_map (fun e =>
    [[prefix a; suffix b; inbetweeny c; prefix d; suffix e]])
    (rowid_in random_noun (nouns db)))
    (rowid_in random_noun (nouns db)))
    (rowid_in random_inbetweeny (inbetweenies db)))
    (rowid_in random_noun (nouns db)))
    (rowid_in random_noun (nouns db)).

Definition _random_parts (r : sql_random) (db : SnuskDb) : result (list string) :=
  list_of_row (fetchone (select_random_parts r db)).

(** ** The composer *)

(** [random.choice(seq)] with random outcome [k]; an empty sequence raises
    [IndexError]. *)
Definition choice {A : Type} (k : nat) (seq : list A) : result A :=
  match nth_error seq (k mod length seq) with
  | Some x => Ok x
  | None => Raise IndexError
  end.

Fixpoint list_set {A : Type} (l : list A) (i : nat) (x : A) : list A :=
  match l, i with
  | [], _ => []
  | _ :: l', O => x :: l'
  | y :: l', S i' => y :: list_set l' i' x
  end.

(** [parts[i] = x]; an index out of range raises [IndexError]. *)
Definition setitem {A : Type} (l : list A) (i : nat) (x : A) : result (list A) :=
  if (i <? length l)%nat then Ok (list_set l i x) else Raise IndexError.

(** [str.format] of the template [{}{} {} {}{}] on the unpacked parts: fewer
    than five parts raise [IndexError], further parts are ignored. *)
Definition _format_parts (parts : list string) : result string :=
  match parts with
  | a :: b :: c :: d :: e :: _ => Ok (a ++ b ++ " " ++ c ++ " " ++ d ++ e)%string
  | _ => Raise IndexError
  end.

Definition snusk (r : sql_random) (db : SnuskDb) : result string :=
  parts <- _random_parts r db ;;
  _format_parts parts.

Definition directed_snusk (r : sql_random) (k : nat) (db : SnuskDb)
    (target : string) : result string :=
  parts <- _random_parts r db ;;
  i <- choice k [0; 1; 3; 4]%nat ;;
  let part := if existsb (Nat.eqb i) [0; 3]%nat then target else (target ++ "ern")%string in
  parts <- setitem parts i part ;;
  _format_parts parts.

Definition nick (r : sql_random) (k : nat) (db : SnuskDb) : result string :=
  parts <- _random_parts r db ;;
  i <- choice k [0; 1]%nat ;;
  match nth_error parts i with
  | Some p => Ok p
  | None => Raise IndexError
  end.

Definition example_snusk (r : sql_random) (k : nat) (db : SnuskDb)
    (a b : string) : result string :=
  parts <- _random_parts r db ;;
  coin <- choice k [false; true] ;;
  parts <- (if coin : bool
            then parts <- setitem parts 0 a ;; setitem parts 4 b
            else parts <- setitem parts 1 b ;; setitem parts 3 a) ;;
  _format_parts parts.

Definition example_snusk_with_inbetweeny (r : sql_random) (db : SnuskDb)
    (inbetweeny : string) : result string :=
  parts <- _random_parts r db ;;
  parts <- setitem parts 2 inbetweeny ;;
  _format_parts parts.

(** ** The store operations *)

(** [WHERE prefix = p AND suffix = s]. *)
Definition noun_key_eqb (p s : string) (r : noun_row) : bool :=
  (prefix r =? p)%string && (suffix r =? s)%string.

(** [WHERE inbetweeny = w]. *)
Definition inbetweeny_key_eqb (w : string) (r : inbetweeny_row) : bool :=
  (inbetweeny r =? w)%string.

(** [INSERT INTO nouns (prefix, suffix) VALUES (p, s)]: the score takes its
    default 0; [UNIQUE(prefix, suffix)] raises [IntegrityError] and leaves
    the table as it was. *)
Definition insert_into_nouns (p s : string) (t : list noun_row)
  : result (list noun_row) :=
  if existsb (noun_key_eqb p s) t then Raise IntegrityError
  else Ok (t ++ [Noun p s (Integer 0)]).

(** [INSERT INTO inbetweenies (inbetweeny) VALUES (w)]. *)
Definition insert_into_inbetweenies (w : string) (t : list inbetweeny_row)
  : result (list inbetweeny_row) :=
  if existsb (inbetweeny_key_eqb w) t then Raise IntegrityError
  else Ok (t ++ [Inbetweeny w (Integer 0)]).

(** [_setup]: each table gets its seed row when it is empty. *)
Definition _setup (db : SnuskDb) : result SnuskDb :=
  ns <- (if (length (nouns db) =? 0)%nat
         then insert_into_nouns "frukt" "frukten" (nouns db)
         else Ok (nouns db)) ;;
  ibs <- (if (length (inbetweenies db) =? 0)%nat
          then insert_into_inbetweenies "i" (inbetweenies db)
          else Ok (inbetweenies db)) ;;
  Ok (Db ns ibs).

(** A database file that holds no table yet. *)
Definition empty_file : SnuskDb := Db [] [].

(** A stateful operation returns its value and the store it leaves. *)
Definition add_noun (p s : string) (db : SnuskDb) : result bool * SnuskDb :=
  match insert_into_nouns p s (nouns db) with
  | Ok t => (Ok true, Db t (inbetweenies db))
  | Raise IntegrityError => (Ok false, db)
  | Raise e => (Raise e, db)
  end.

Definition add_inbetweeny (w : string) (db : SnuskDb) : result bool * SnuskDb :=
  match insert_into_inbetweenies w (inbetweenies db) with
  | Ok t => (Ok true, Db (nouns db) t)
  | Raise IntegrityError => (Ok false, db)
  | Raise e => (Raise e, db)
  end.

Definition noun_key (r : noun_row) : string * string := (prefix r, suffix r).

(** The order of the index of [UNIQUE(prefix, suffix)]: by prefix, then by
    suffix, each compared byte by byte. *)
Definition key_compare (a b : string * string) : comparison :=
  match String.compare (fst a) (fst b) with
  | Eq => String.compare (snd a) (snd b)
  | c => c
  end.

Definition key_leb (a b : string * string) : bool :=
  match key_compare a b with
  | Gt => false
  | _ => true
  end.

(** A new entry of the index goes after the entries that are not greater. *)
Fixpoint index_insert (k : string * string) (idx : list (string * string))
  : list (string * string) :=
  match idx with
  | [] => [k]
  | k' :: idx' =>
      if key_leb k' k then k' :: index_insert k idx' else k :: idx
  end.

(** The index of [UNIQUE(prefix, suffix)]: the keys of the rows, entered in
    rowid order. *)
Definition nouns_index (t : list noun_row) : list (string * string) :=
  fold_left (fun idx r => index_insert (noun_key r) idx) t [].

(** [SELECT prefix, suffix FROM nouns WHERE word IN (prefix, suffix)], read
    off the index. *)
Definition find_noun (word : string) (db : SnuskDb) : list (string * string) :=
  filter (fun k => (word =? fst k)%string || (word =? snd k)%string)
         (nouns_index (nouns db)).

(** [UPDATE nouns SET score = score + delta WHERE prefix = p AND suffix = s]. *)
Definition update_noun_score (delta : Z) (p s : string) (t : list noun_row)
  : list noun_row :=
  map (fun r => if noun_key_eqb p s r
                then Noun (prefix r) (suffix r) (sql_add (noun_score r) delta)
                else r) t.

(** [SELECT score FROM nouns WHERE prefix = p AND suffix = s]. *)
Definition select_noun_score (p s : string) (t : list noun_row)
  : list sql_number :=
  map noun_score (filter (noun_key_eqb p s) t).

Definition add_noun_score (p s : string) (delta : Z) (db : SnuskDb)
  : result (option sql_number) * SnuskDb :=
  match bind_int delta with
  | Raise e => (Raise e, db)
  | Ok delta =>
      let db' := Db (update_noun_score delta p s (nouns db)) (inbetweenies db) in
      (Ok (fetchone (select_noun_score p s (nouns db'))), db')
  end.

Definition update_inbetweeny_score (delta : Z) (w : string)
    (t : list inbetweeny_row) : list inbetweeny_row :=
  map (fun r => if inbetweeny_key_eqb w r
                then Inbetweeny (inbetweeny r)
                                (sql_add (inbetweeny_score r) delta)
                else r) t.

Definition select_inbetweeny_score (w : string) (t : list inbetweeny_row)
  : list sql_number :=
  map inbetweeny_score (filter (inbetweeny_key_eqb w) t).

Definition add_inbetweeny_score (w : string) (delta : Z) (db : SnuskDb)
  : result (option sql_number) * SnuskDb :=
  match bind_int delta with
  | Raise e => (Raise e, db)
  | Ok delta =>
      let db' :=
        Db (nouns db) (update_inbetweeny_score delta w (inbetweenies db)) in
      (Ok (fetchone (select_inbetweeny_score w (inbetweenies db'))), db')
  end.

(** The row with rowid [i]. *)
Definition row_at {R : Type} (i : nat) (t : list R) : option R :=
  match i with
  | O => None
  | S j => nth_error t j
  end.

(** The row that [x.rowid IN (SELECT rowid FROM t WHERE cond ORDER BY
    RANDOM() LIMIT 1)] lets through, for the random outcome [k]. *)
Definition drawn_row {R : Type} (cond : R -> bool) (k : nat) (t : list R)
  : option R :=
  match order_by_random_limit_1 k (select_rowid cond t) with
  | i :: _ => row_at i t
  | [] => None
  end.

(** The noun row [x] is the one that the reference to [random_noun] with
    random outcome [k] lets through. *)
Definition noun_drawn (k : nat) (db : SnuskDb) (x : noun_row) : Prop :=
  exists i, random_noun k db = [i] /\ row_at i (nouns db) = Some x.

Definition inbetweeny_drawn (k : nat) (db : SnuskDb) (c : inbetweeny_row)
  : Prop :=
  exists i, random_inbetweeny k db = [i] /\ row_at i (inbetweenies db) = Some c.

(** The eligible rows of each table. *)
Definition eligible_nouns (db : SnuskDb) : list noun_row :=
  filter eligible_noun (nouns db).

Definition eligible_inbetweenies (db : SnuskDb) : list inbetweeny_row :=
  filter eligible_inbetweeny (inbetweenies db).

(** ** Stored fragments, invariant I1 and call sequences *)

Definition stored_noun (p s : string) (db : SnuskDb) : Prop :=
  In (p, s) (map noun_key (nouns db)).

Definition stored_inbetweeny (w : string) (db : SnuskDb) : Prop :=
  In w (map inbetweeny (inbetweenies db)).

(** I1: no two noun rows share (prefix, suffix), no two connector rows share
    their word. *)
Definition unique_fragments (db : SnuskDb) : Prop :=
  NoDup (map noun_key (nouns db)) /\ NoDup (map inbetweeny (inbetweenies db)).

(** The score a fragment has in the store, read as [add_noun_score] reads it
    back. *)
Definition score_of_noun (p s : string) (db : SnuskDb) : option sql_number :=
  fetchone (select_noun_score p s (nouns db)).

Definition score_of_inbetweeny (w : string) (db : SnuskDb)
  : option sql_number :=
  fetchone (select_inbetweeny_score w (inbetweenies db)).

(** Successive [add_noun_score] calls on one fragment, one per delta: the
    values returned, in call order, and the store left by the last call. *)
Fixpoint add_noun_scores (p s : string) (deltas : list Z) (db : SnuskDb)
  : list (result (option sql_number)) * SnuskDb :=
  match deltas with
  | [] => ([], db)
  | d :: deltas' =>
      let (v, db1) := add_noun_score p s d db in
      let (vs, db2) := add_noun_scores p s deltas' db1 in
      (v :: vs, db2)
  end.

Fixpoint add_inbetweeny_scores (w : string) (deltas : list Z) (db : SnuskDb)
  : list (result (option sql_number)) * SnuskDb :=
  match deltas with
  | [] => ([], db)
  | d :: deltas' =>
      let (v, db1) := add_inbetweeny_score w d db in
      let (vs, db2) := add_inbetweeny_scores w deltas' db1 in
      (v :: vs, db2)
  end.

Definition sum (deltas : list Z) : Z := fold_right Z.add 0%Z deltas.

(** The score after each delta, starting from [z]. *)
Fixpoint running_scores (z : Z) (deltas : list Z) : list Z :=
  match deltas with
  | [] => []
  | d :: deltas' => (z + d)%Z :: running_scores (z + d) deltas'
  end.

(** Every delta and every score it leaves, starting from [z], fits 64 bits. *)
Fixpoint int64_scores (z : Z) (deltas : list Z) : bool :=
  match deltas with
  | [] => true
  | d :: deltas' =>
      is_int64 d && is_int64 (z + d) && int64_scores (z + d) deltas'
  end.

(** The calls that change the store. *)
Inductive call : Type :=
| AddNoun (p s : string)
| AddInbetweeny (w : string)
| AddNounScore (p s : string) (delta : Z)
| AddInbetweenyScore (w : string) (delta : Z).

Definition run_call (c : call) (db : SnuskDb) : SnuskDb :=
  match c with
  | AddNoun p s => snd (add_noun p s db)
  | AddInbetweeny w => snd (add_inbetweeny w db)
  | AddNounScore p s delta => snd (add_noun_score p s delta db)
  | AddInbetweenyScore w delta => snd (add_inbetweeny_score w delta db)
  end.

Definition run_calls (cs : list call) (db : SnuskDb) : SnuskDb :=
  fold_left (fun db c => run_call c db) cs db.

(** The store of a freshly created database file. *)
Definition fresh_db : SnuskDb :=
  Db [Noun "frukt" "frukten" (Integer 0)] [Inbetweeny "i" (Integer 0)].

(** [sub in s] on Python strings: [sub] occurs in [s] as a substring. *)
Fixpoint contains (sub s : string) : bool :=
  String.prefix sub s ||
  match s with
  | EmptyString => false
  | String _ s' => contains sub s'
  end.

(** The word made of [n] letters x. *)
Fixpoint xs (n : nat) : string :=
  match n with
  | O => EmptyString
  | S n' => String "x" (xs n')
  end.

(** ** [taste] *)

(** [str.upper] is Python's own; [taste] takes it as the parameter [upper]. *)
Definition taste (upper : string -> string) (r : sql_random) (db : SnuskDb)
  : result string :=
  parts <- _random_parts r db ;;
  match nth_error parts 0, nth_error parts 3 with
  | Some p0, Some p3 => Ok (upper p0 ++ "/" ++ upper p3)%string
  | _, _ => Raise IndexError
  end.

(** What [str.upper] does on a string of ASCII characters. *)
Definition upper_ascii_char (c : ascii) : ascii :=
  let n := nat_of_ascii c in
  if (97 <=? n) && (n <=? 122) then ascii_of_nat (n - 32) else c.

Fixpoint upper_ascii (s : string) : string :=
  match s with
  | EmptyString => EmptyString
  | String c s' => String (upper_ascii_char c) (upper_ascii s')
  end.

(** ** The command line *)

(** [for prefix, suffix in nouns: db.add_noun(prefix, suffix)]: the value of
    each call is dropped, an exception ends the loop. *)
Fixpoint import_nouns (nouns : list (string * string)) (db : SnuskDb)
  : result unit * SnuskDb :=
  match nouns with
  | [] => (Ok tt, db)
  | (p, s) :: nouns' =>
      match add_noun p s db with
      | (Ok _, db') => import_nouns nouns' db'
      | (Raise e, db') => (Raise e, db')
      end
  end.

(** [for inbetweeny in inbetweenies: db.add_inbetweeny(inbetweeny)]. *)
Fixpoint import_inbetweenies (inbetweenies : list string) (db : SnuskDb)
  : result unit * SnuskDb :=
  match inbetweenies with
  | [] => (Ok tt, db)
  | w :: inbetweenies' =>
      match add_inbetweeny w db with
      | (Ok _, db') => import_inbetweenies inbetweenies' db'
      | (Raise e, db') => (Raise e, db')
      end
  end.

(** The random outcomes of the three compositions that the command line
    prints. *)
Record main_random : Type := MainRandom {
  rnd_snusk : sql_random;
  rnd_directed : sql_random;
  choice_directed : nat;
  rnd_example : sql_random;
  choice_example : nat
}.

(** The three [print] calls: the lines printed, in order, until one of the
    compositions raises. *)
Definition print_examples (rnd : main_random) (db : SnuskDb)
  : list string * result unit :=
  match snusk (rnd_snusk rnd) db with
  | Raise e => ([], Raise e)
  | Ok l1 =>
      match directed_snusk (rnd_directed rnd) (choice_directed rnd) db "raek" with
      | Raise e => ([l1], Raise e)
      | Ok l2 =>
          match example_snusk (rnd_example rnd) (choice_example rnd) db
                  "don" "donet" with
          | Raise e => ([l1; l2], Raise e)
          | Ok l3 => ([l1; l2; l3], Ok tt)
          end
      end
  end.

(** The body of [if __name__ == "__main__"], on a database file with content
    [file] and the already parsed JSON files, when given: the lines printed,
    how the run ends, and the content of the file afterwards. *)
Definition main (file : SnuskDb)
    (import_noun_json : option (list (string * string)))
    (import_inbetweeny_json : option (list string))
    (rnd : main_random) : list string * result unit * SnuskDb :=
  match _setup file with
  | Raise e => ([], Raise e, file)
  | Ok db =>
      let (res1, db1) :=
        match import_noun_json with
        | Some nouns => import_nouns nouns db
        | None => (Ok tt, db)
        end in
      match res1 with
      | Raise e => ([], Raise e, db1)
      | Ok _ =>
          let (res2, db2) :=
            match import_inbetweeny_json with
            | Some inbetweenies => import_inbetweenies inbetweenies db1
            | None => (Ok tt, db1)
            end in
          match res2 with
          | Raise e => ([], Raise e, db2)
          | Ok _ => (print_examples rnd db2, db2)
          end
      end
  end.

(** ** Concrete stores and random outcomes *)

Definition no_random : sql_random := SqlRandom 0 0.

(** The seed noun voted down to [SKIP_SCORE]. *)
Definition db_skipped : SnuskDb :=
  run_calls [AddNounScore "frukt" "frukten" (-3)] fresh_db.

(** ("don", "donet") and "i" at score 10 as the only eligible fragments. *)
Definition db_don : SnuskDb :=
  run_calls [AddNoun "don" "donet"; AddNounScore "don" "donet" 10;
             AddNounScore "frukt" "frukten" (-3);
             AddInbetweenyScore "i" 10] fresh_db.

(** Two eligible nouns. *)
Definition db_two : SnuskDb := run_calls [AddNoun "don" "donet"] fresh_db.

(** Three nouns with the prefix "a". *)
Definition db_three_a : SnuskDb :=
  run_calls [AddNoun "a" "x"; AddNoun "a" "y"; AddNoun "a" "z"] fresh_db.

(** The seed connector voted down to [SKIP_SCORE]. *)
Definition db_no_connector : SnuskDb :=
  run_calls [AddInbetweenyScore "i" (-3)] fresh_db.

Definition main_no_random : main_random :=
  MainRandom no_random no_random 0 no_random 0.

(** * Properties *)

(** ** Rows and rowids *)

Section TableFacts.
Context {R : Type}.
Implicit Types (t : list R) (cond : R -> bool).

Lemma in_combine_seq t : forall s i x,
  In (i, x) (combine (seq s (length t)) t) <->
  s <= i /\ nth_error t (i - s) = Some x.
Proof.
  induction t as [|y t IH]; intros s i x; simpl.
  - split; [tauto|]. intros [_ H]. destruct (i - s); discriminate.
  - rewrite IH. split.
    + intros [H|[Hle H]].
      * inversion H; subst. rewrite Nat.sub_diag. split; [lia|reflexivity].
      * split; [lia|]. replace (i - s) with (S (i - S s)) by lia. exact H.
    + intros [Hle H]. destruct (Nat.eq_dec s i) as [->|Hne].
      * rewrite Nat.sub_diag in H. simpl in H. left. congruence.
      * right. split; [lia|].
        replace (i - s) with (S (i - S s)) in H by lia. exact H.
Qed.

Lemma in_with_rowid t i x :
  In (i, x) (with_rowid t) <-> row_at i t = Some x.
Proof.
  unfold with_rowid. rewrite in_combine_seq. destruct i as [|j]; simpl.
  - split; [lia|discriminate].
  - rewrite Nat.sub_0_r. split; [tauto|]. intros H. split; [lia|exact H].
Qed.

Lemma row_at_In t i x : row_at i t = Some x -> In x t.
Proof. destruct i; simpl; [discriminate|]. apply nth_error_In. Qed.

Lemma In_row_at t x : In x t -> exists i, row_at i t = Some x.
Proof.
  intros H. apply In_nth_error in H as [n H]. exists (S n). exact H.
Qed.

Lemma in_select_rowid cond t i :
  In i (select_rowid cond t) <->
  exists x, row_at i t = Some x /\ cond x = true.
Proof.
  unfold select_rowid. rewrite in_map_iff. split.
  - intros [[j x] [<- H]]. apply filter_In in H as [H Hc]. simpl in *.
    exists x. split; [apply in_with_rowid|]; assumption.
  - intros [x [H Hc]]. exists (i, x). split; [reflexivity|].
    apply filter_In. split; [apply in_with_rowid|]; assumption.
Qed.

Lemma filter_seq_single t i : forall s,
  map snd (filter (fun ir => existsb (Nat.eqb (fst ir)) [i])
                  (combine (seq s (length t)) t)) =
  if s <=? i then match nth_error t (i - s) with
                  | Some x => [x]
                  | None => []
                  end
  else [].
Proof.
  set (f := fun ir : nat * R => existsb (Nat.eqb (fst ir)) [i]).
  assert (Hf : forall s y, f (s, y) = (s =? i)).
  { intros s y. unfold f. simpl. apply orb_false_r. }
  induction t as [|y t IH]; intros s; cbn [length seq combine filter map].
  - destruct (s <=? i); [|reflexivity]. destruct (i - s); reflexivity.
  - rewrite Hf. destruct (Nat.eqb_spec s i) as [->|Hne]; cbn [map snd].
    + rewrite IH, Nat.leb_refl, Nat.sub_diag.
      replace (S i <=? i) with false by (symmetry; apply Nat.leb_gt; lia).
      reflexivity.
    + rewrite IH. destruct (Nat.leb_spec s i) as [Hle|Hgt].
      * replace (S s <=? i) with true by (symmetry; apply Nat.leb_le; lia).
        replace (i - s) with (S (i - S s)) by lia. reflexivity.
      * replace (S s <=? i) with false by (symmetry; apply Nat.leb_gt; lia).
        reflexivity.
Qed.

(** A rowid designates at most one row. *)
Lemma rowid_in_single t i :
  rowid_in [i] t = match row_at i t with Some x => [x] | None => [] end.
Proof.
  unfold rowid_in, with_rowid. rewrite filter_seq_single.
  destruct i as [|j]; simpl; [reflexivity|]. rewrite Nat.sub_0_r. reflexivity.
Qed.

Lemma rowid_in_nil t : rowid_in [] t = [].
Proof.
  unfold rowid_in. induction (with_rowid t) as [|y l IH]; simpl; auto.
Qed.
End TableFacts.

(** ** Random draws *)

Lemma firstn_1_skipn {A : Type} (l : list A) : forall n,
  firstn 1 (skipn n l) = match nth_error l n with Some x => [x] | None => [] end.
Proof.
  induction l as [|y l IH]; intros [|n]; simpl; try reflexivity.
  apply IH.
Qed.

Lemma order_by_random_limit_1_cases {A : Type} (k : nat) (l : list A) :
  (l = [] /\ order_by_random_limit_1 k l = []) \/
  (exists x, In x l /\ order_by_random_limit_1 k l = [x]).
Proof.
  destruct l as [|y l]; [left; split; reflexivity|right].
  unfold order_by_random_limit_1. rewrite firstn_1_skipn.
  destruct (nth_error (y :: l) (k mod length (y :: l))) as [x|] eqn:E.
  - exists x. split; [eapply nth_error_In; eassumption|reflexivity].
  - apply nth_error_None in E.
    pose proof (Nat.mod_upper_bound k (length (y :: l))) as Hlt.
    simpl in *. lia.
Qed.

(** Every candidate is the outcome of some random value. *)
Lemma order_by_random_limit_1_any {A : Type} (l : list A) (x : A) :
  In x l -> exists k, order_by_random_limit_1 k l = [x].
Proof.
  intros H. apply In_nth_error in H as [n Hn]. exists n.
  assert (Hlt : n < length l) by (apply nth_error_Some; congruence).
  destruct l as [|y l]; [destruct n; discriminate|].
  unfold order_by_random_limit_1.
  rewrite firstn_1_skipn, Nat.mod_small by exact Hlt. rewrite Hn. reflexivity.
Qed.

Section Draw.
Context {R : Type}.
Implicit Types (t : list R) (cond : R -> bool).

Lemma rowid_in_random cond k t :
  rowid_in (order_by_random_limit_1 k (select_rowid cond t)) t =
  match drawn_row cond k t with Some x => [x] | None => [] end.
Proof.
  unfold drawn_row.
  destruct (order_by_random_limit_1_cases k (select_rowid cond t))
    as [[_ ->]|[i [_ ->]]].
  - apply rowid_in_nil.
  - apply rowid_in_single.
Qed.

Lemma select_rowid_nil cond t :
  select_rowid cond t = [] <-> filter cond t = [].
Proof.
  split; intros H.
  - destruct (filter cond t) as [|x l] eqn:E; [reflexivity|exfalso].
    assert (Hx : In x (filter cond t)) by (rewrite E; left; reflexivity).
    apply filter_In in Hx as [Hx Hc]. apply In_row_at in Hx as [i Hi].
    assert (Hin : In i (select_rowid cond t)).
    { apply in_select_rowid. exists x. split; assumption. }
    rewrite H in Hin. contradiction.
  - destruct (select_rowid cond t) as [|i l] eqn:E; [reflexivity|exfalso].
    assert (Hin : In i (select_rowid cond t)) by (rewrite E; left; reflexivity).
    apply in_select_rowid in Hin as [x [Hx Hc]]. apply row_at_In in Hx.
    assert (Hf : In x (filter cond t)) by (apply filter_In; split; assumption).
    rewrite H in Hf. contradiction.
Qed.

(** A drawn row is stored and satisfies the condition. *)
Lemma drawn_row_Some cond k t x :
  drawn_row cond k t = Some x ->
  exists i, order_by_random_limit_1 k (select_rowid cond t) = [i] /\
            row_at i t = Some x /\ In x t /\ cond x = true.
Proof.
  unfold drawn_row. intros H.
  destruct (order_by_random_limit_1_cases k (select_rowid cond t))
    as [[_ E]|[i [Hin E]]]; rewrite E in H; [discriminate|].
  exists i. apply in_select_rowid in Hin as [y [Hy Hc]].
  rewrite Hy in H. inversion H; subst y.
  repeat split; try assumption. eapply row_at_In; eassumption.
Qed.

(** Nothing is drawn exactly when no row satisfies the condition. *)
Lemma drawn_row_None cond k t :
  drawn_row cond k t = None <-> filter cond t = [].
Proof.
  rewrite <- select_rowid_nil. unfold drawn_row.
  destruct (order_by_random_limit_1_cases k (select_rowid cond t))
    as [[E1 E2]|[i [Hin E]]].
  - rewrite E2, E1. tauto.
  - rewrite E. apply in_select_rowid in Hin as Hx. destruct Hx as [x [Hx _]].
    rewrite Hx. split; [discriminate|].
    intros E0. rewrite E0 in Hin. contradiction.
Qed.

(** Every row that satisfies the condition is drawn by some outcome. *)
Lemma drawn_row_any cond t i x :
  row_at i t = Some x -> cond x = true ->
  exists k, order_by_random_limit_1 k (select_rowid cond t) = [i] /\
            drawn_row cond k t = Some x.
Proof.
  intros Hx Hc.
  destruct (order_by_random_limit_1_any (select_rowid cond t) i) as [k Hk].
  { apply in_select_rowid. exists x. split; assumption. }
  exists k. split; [exact Hk|]. unfold drawn_row. rewrite Hk. exact Hx.
Qed.
End Draw.

(** [_random_parts] in terms of the two rows its draws let through. *)
Lemma _random_parts_drawn (r : sql_random) (db : SnuskDb) :
  _random_parts r db =
  match drawn_row eligible_noun (rnd_noun r) (nouns db),
        drawn_row eligible_inbetweeny (rnd_inbetweeny r) (inbetweenies db) with
  | Some x, Some c =>
      Ok [prefix x; suffix x; inbetweeny c; prefix x; suffix x]
  | _, _ => Raise TypeError
  end.
Proof.
  unfold _random_parts, select_random_parts, random_noun, random_inbetweeny.
  rewrite !rowid_in_random.
  destruct (drawn_row eligible_noun (rnd_noun r) (nouns db));
    destruct (drawn_row eligible_inbetweeny (rnd_inbetweeny r)
                (inbetweenies db)); reflexivity.
Qed.

Lemma noun_drawn_iff (k : nat) (db : SnuskDb) (x : noun_row) :
  noun_drawn k db x <-> drawn_row eligible_noun k (nouns db) = Some x.
Proof.
  unfold noun_drawn, random_noun. split.
  - intros [i [Hi Hx]]. unfold drawn_row. rewrite Hi. exact Hx.
  - intros H. apply drawn_row_Some in H as [i [Hi [Hx _]]]. eauto.
Qed.

Lemma inbetweeny_drawn_iff (k : nat) (db : SnuskDb) (c : inbetweeny_row) :
  inbetweeny_drawn k db c <->
  drawn_row eligible_inbetweeny k (inbetweenies db) = Some c.
Proof.
  unfold inbetweeny_drawn, random_inbetweeny. split.
  - intros [i [Hi Hx]]. unfold drawn_row. rewrite Hi. exact Hx.
  - intros H. apply drawn_row_Some in H as [i [Hi [Hx _]]]. eauto.
Qed.

Lemma noun_drawn_eligible (k : nat) (db : SnuskDb) (x : noun_row) :
  noun_drawn k db x ->
  In x (nouns db) /\ (SKIP_SCORE < score_value (noun_score x))%Z.
Proof.
  intros H. apply noun_drawn_iff, drawn_row_Some in H as [_ [_ [_ [Hin He]]]].
  split; [exact Hin|]. apply Z.ltb_lt. exact He.
Qed.

Lemma inbetweeny_drawn_eligible (k : nat) (db : SnuskDb) (c : inbetweeny_row) :
  inbetweeny_drawn k db c ->
  In c (inbetweenies db) /\
  (SKIP_SCORE < score_value (inbetweeny_score c))%Z.
Proof.
  intros H.
  apply inbetweeny_drawn_iff, drawn_row_Some in H as [_ [_ [_ [Hin He]]]].
  split; [exact Hin|]. apply Z.ltb_lt. exact He.
Qed.

(** A returned tuple is made of the drawn noun row and the drawn connector
    row. *)
Lemma _random_parts_Ok (r : sql_random) (db : SnuskDb) (parts : list string) :
  _random_parts r db = Ok parts <->
  exists x c,
    noun_drawn (rnd_noun r) db x /\
    inbetweeny_drawn (rnd_inbetweeny r) db c /\
    parts = [prefix x; suffix x; inbetweeny c; prefix x; suffix x].
Proof.
  rewrite _random_parts_drawn. split.
  - destruct (drawn_row eligible_noun (rnd_noun r) (nouns db)) as [x|] eqn:Ex;
      [|discriminate].
    destruct (drawn_row eligible_inbetweeny (rnd_inbetweeny r)
                (inbetweenies db)) as [c|] eqn:Ec; [|discriminate].
    intros H. inversion H; subst parts. exists x, c.
    rewrite noun_drawn_iff, inbetweeny_drawn_iff. auto.
  - intros [x [c [Hx [Hc ->]]]].
    apply noun_drawn_iff in Hx. apply inbetweeny_drawn_iff in Hc.
    rewrite Hx, Hc. reflexivity.
Qed.

(** Without an eligible noun or without an eligible connector the query has
    no row and [list(None)] raises. *)
Lemma _random_parts_no_eligible (r : sql_random) (db : SnuskDb) :
  eligible_nouns db = [] \/ eligible_inbetweenies db = [] ->
  _random_parts r db = Raise TypeError.
Proof.
  intros H. rewrite _random_parts_drawn. destruct H as [H|H].
  - apply (drawn_row_None eligible_noun (rnd_noun r)) in H. rewrite H.
    reflexivity.
  - apply (drawn_row_None eligible_inbetweeny (rnd_inbetweeny r)) in H.
    rewrite H.
    destruct (drawn_row eligible_noun (rnd_noun r) (nouns db)); reflexivity.
Qed.

(** The only exception of [_random_parts] is that [TypeError], and it is
    raised only when one of the eligible subsets is empty. *)
Lemma _random_parts_Raise (r : sql_random) (db : SnuskDb) (e : exn) :
  _random_parts r db = Raise e ->
  e = TypeError /\ (eligible_nouns db = [] \/ eligible_inbetweenies db = []).
Proof.
  rewrite _random_parts_drawn.
  destruct (drawn_row eligible_noun (rnd_noun r) (nouns db)) eqn:Ea.
  2: { intros H; inversion H. split; [reflexivity|left].
       eapply drawn_row_None; eassumption. }
  destruct (drawn_row eligible_inbetweeny (rnd_inbetweeny r)
              (inbetweenies db)) eqn:Ec.
  2: { intros H; inversion H. split; [reflexivity|right].
       eapply drawn_row_None; eassumption. }
  discriminate.
Qed.

Lemma filter_nil_forall {A : Type} (cond : A -> bool) (l : list A) :
  filter cond l = [] <-> forall x, In x l -> cond x = false.
Proof.
  induction l as [|y l IH]; simpl.
  - split; [intros _ x []|reflexivity].
  - destruct (cond y) eqn:E.
    + split; [discriminate|]. intros H. specialize (H y (or_introl eq_refl)).
      congruence.
    + rewrite IH. split.
      * intros H x [<-|Hx]; auto.
      * intros H x Hx. apply H. right. exact Hx.
Qed.

Lemma eligible_nouns_nil (db : SnuskDb) :
  eligible_nouns db = [] <->
  forall x, In x (nouns db) -> (score_value (noun_score x) <= SKIP_SCORE)%Z.
Proof.
  unfold eligible_nouns. rewrite filter_nil_forall. unfold eligible_noun.
  split; intros H x Hx; specialize (H x Hx).
  - apply Z.ltb_ge. exact H.
  - apply Z.ltb_ge. exact H.
Qed.

Lemma eligible_inbetweenies_nil (db : SnuskDb) :
  eligible_inbetweenies db = [] <->
  forall c, In c (inbetweenies db) ->
            (score_value (inbetweeny_score c) <= SKIP_SCORE)%Z.
Proof.
  unfold eligible_inbetweenies. rewrite filter_nil_forall.
  unfold eligible_inbetweeny.
  split; intros H x Hx; specialize (H x Hx).
  - apply Z.ltb_ge. exact H.
  - apply Z.ltb_ge. exact H.
Qed.

(** Every eligible noun row, together with every eligible connector row, is
    the outcome of some random values. *)
Lemma random_parts_any_rows (db : SnuskDb) (i j : nat)
    (x : noun_row) (c : inbetweeny_row) :
  row_at i (nouns db) = Some x -> eligible_noun x = true ->
  row_at j (inbetweenies db) = Some c -> eligible_inbetweeny c = true ->
  exists r,
    random_noun (rnd_noun r) db = [i] /\
    random_inbetweeny (rnd_inbetweeny r) db = [j] /\
    _random_parts r db =
    Ok [prefix x; suffix x; inbetweeny c; prefix x; suffix x].
Proof.
  intros Hx Ex Hc Ec.
  destruct (drawn_row_any eligible_noun _ _ _ Hx Ex) as [kn [Kn Dn]].
  destruct (drawn_row_any eligible_inbetweeny _ _ _ Hc Ec) as [kc [Kc Dc]].
  exists (SqlRandom kn kc). simpl. repeat split; try assumption.
  rewrite _random_parts_drawn. simpl. rewrite Dn, Dc. reflexivity.
Qed.

Lemma drawn_row_eligible {R : Type} (cond : R -> bool) (k : nat) (t : list R) :
  filter cond t <> [] ->
  exists x, drawn_row cond k t = Some x /\ In x (filter cond t).
Proof.
  intros H. destruct (drawn_row cond k t) as [x|] eqn:E.
  - exists x. split; [reflexivity|].
    apply drawn_row_Some in E as [_ [_ [_ [Hin Hc]]]].
    apply filter_In. split; assumption.
  - apply drawn_row_None in E. contradiction.
Qed.

(** With an eligible noun and an eligible connector the draw returns a
    tuple, whatever the random outcome. *)
Lemma _random_parts_total (r : sql_random) (db : SnuskDb) :
  eligible_nouns db <> [] -> eligible_inbetweenies db <> [] ->
  exists a b c d e,
    In a (eligible_nouns db) /\ In b (eligible_nouns db) /\
    In c (eligible_inbetweenies db) /\
    In d (eligible_nouns db) /\ In e (eligible_nouns db) /\
    _random_parts r db =
    Ok [prefix a; suffix b; inbetweeny c; prefix d; suffix e].
Proof.
  intros Hn Hi. rewrite _random_parts_drawn.
  destruct (drawn_row_eligible eligible_noun (rnd_noun r) _ Hn) as [x [-> Hx]].
  destruct (drawn_row_eligible eligible_inbetweeny (rnd_inbetweeny r) _ Hi)
    as [c [-> Hc]].
  exists x, x, c, x, x. auto 10.
Qed.

(** The same, with the one noun row that fills the four noun slots. *)
Lemma _random_parts_total_row (r : sql_random) (db : SnuskDb) :
  eligible_nouns db <> [] -> eligible_inbetweenies db <> [] ->
  exists x c,
    noun_drawn (rnd_noun r) db x /\ In x (eligible_nouns db) /\
    inbetweeny_drawn (rnd_inbetweeny r) db c /\
    In c (eligible_inbetweenies db) /\
    _random_parts r db =
    Ok [prefix x; suffix x; inbetweeny c; prefix x; suffix x].
Proof.
  intros Hn Hi. rewrite _random_parts_drawn.
  destruct (drawn_row_eligible eligible_noun (rnd_noun r) _ Hn) as [x [Ex Hx]].
  destruct (drawn_row_eligible eligible_inbetweeny (rnd_inbetweeny r) _ Hi)
    as [c [Ec Hc]].
  rewrite Ex, Ec. exists x, c.
  rewrite noun_drawn_iff, inbetweeny_drawn_iff. auto 10.
Qed.

(** C1.  [_random_parts] restricts each of its five draws to rows whose score
    is strictly greater than [SKIP_SCORE] = -3: the slots of a returned tuple
    are attributes of the drawn rows, a noun row or a connector row of
    score <= -3 is never drawn (so a prefix, suffix or word that only rows of
    score <= -3 have is in no slot it could fill), and when no noun or no
    connector is eligible the call raises [TypeError] instead of returning a
    tuple. *)
Theorem random_parts_skip_score (r : sql_random) (db : SnuskDb) :
  SKIP_SCORE = (-3)%Z /\
  (forall parts, _random_parts r db = Ok parts ->
     exists a b c d e,
       noun_drawn (rnd_noun r) db a /\ noun_drawn (rnd_noun r) db b /\
       inbetweeny_drawn (rnd_inbetweeny r) db c /\
       noun_drawn (rnd_noun r) db d /\ noun_drawn (rnd_noun r) db e /\
       parts = [prefix a; suffix b; inbetweeny c; prefix d; suffix e]) /\
  (forall k x, (score_value (noun_score x) <= -3)%Z -> ~ noun_drawn k db x) /\
  (forall k c, (score_value (inbetweeny_score c) <= -3)%Z ->
               ~ inbetweeny_drawn k db c) /\
  (forall parts w, _random_parts r db = Ok parts ->
     ((forall x, In x (nouns db) -> prefix x = w ->
                 (score_value (noun_score x) <= -3)%Z) ->
      nth_error parts 0 <> Some w /\ nth_error parts 3 <> Some w) /\
     ((forall x, In x (nouns db) -> suffix x = w ->
                 (score_value (noun_score x) <= -3)%Z) ->
      nth_error parts 1 <> Some w /\ nth_error parts 4 <> Some w) /\
     ((forall c, In c (inbetweenies db) -> inbetweeny c = w ->
                 (score_value (inbetweeny_score c) <= -3)%Z) ->
      nth_error parts 2 <> Some w)) /\
  ((forall x, In x (nouns db) -> (score_value (noun_score x) <= -3)%Z) \/
   (forall c, In c (inbetweenies db) ->
              (score_value (inbetweeny_score c) <= -3)%Z) ->
   _random_parts r db = Raise TypeError).
Proof.
  split; [reflexivity|]. split; [|split; [|split; [|split]]].
  - intros parts H. apply _random_parts_Ok in H as [x [c [Hx [Hc ->]]]].
    exists x, x, c, x, x. auto 10.
  - intros k x Hle Hd. apply noun_drawn_eligible in Hd as [_ Hlt].
    unfold SKIP_SCORE in Hlt. lia.
  - intros k c Hle Hd. apply inbetweeny_drawn_eligible in Hd as [_ Hlt].
    unfold SKIP_SCORE in Hlt. lia.
  - intros parts w H.
    apply _random_parts_Ok in H as [x [c [Hx [Hc ->]]]].
    apply noun_drawn_eligible in Hx as [Ix Lx].
    apply inbetweeny_drawn_eligible in Hc as [Ic Lc].
    unfold SKIP_SCORE in *. simpl. split; [|split].
    + intros Hw. split; intros E; inversion E as [E'];
        specialize (Hw x Ix E'); lia.
    + intros Hw. split; intros E; inversion E as [E'];
        specialize (Hw x Ix E'); lia.
    + intros Hw E. inversion E as [E']. specialize (Hw c Ic E'). lia.
  - intros H. apply _random_parts_no_eligible. destruct H as [H|H].
    + left. apply eligible_nouns_nil. exact H.
    + right. apply eligible_inbetweenies_nil. exact H.
Qed.

(** C2.  What the code does in place of four independent noun draws: the one
    materialized [random_noun] serves the four aliases, so in every returned
    tuple [[A; B; C; D; E]] the slots A and D are the prefix and B and E the
    suffix of one and the same eligible noun row, and C is the word of an
    eligible connector row.  A tuple is returned whenever both kinds are
    eligible, every eligible noun row fills the four slots for some random
    outcome, and no random outcome takes two noun slots from rows of
    different rowids. *)
Theorem random_parts_one_noun_row (r : sql_random) (db : SnuskDb) :
  (forall parts, _random_parts r db = Ok parts ->
     exists x c,
       In x (nouns db) /\ eligible_noun x = true /\
       In c (inbetweenies db) /\ eligible_inbetweeny c = true /\
       parts = [prefix x; suffix x; inbetweeny c; prefix x; suffix x]) /\
  (eligible_nouns db <> [] -> eligible_inbetweenies db <> [] ->
   exists parts, _random_parts r db = Ok parts) /\
  (forall i x j c,
     row_at i (nouns db) = Some x -> eligible_noun x = true ->
     row_at j (inbetweenies db) = Some c -> eligible_inbetweeny c = true ->
     exists r',
       random_noun (rnd_noun r') db = [i] /\
       _random_parts r' db =
       Ok [prefix x; suffix x; inbetweeny c; prefix x; suffix x]) /\
  (forall r' parts,
     _random_parts r' db_two = Ok parts ->
     parts = ["frukt"; "frukten"; "i"; "frukt"; "frukten"] \/
     parts = ["don"; "donet"; "i"; "don"; "donet"]).
Proof.
  split; [|split; [|split]].
  - intros parts H. apply _random_parts_Ok in H as [x [c [Hx [Hc ->]]]].
    apply noun_drawn_iff, drawn_row_Some in Hx as [_ [_ [_ [Ix Ex]]]].
    apply inbetweeny_drawn_iff, drawn_row_Some in Hc as [_ [_ [_ [Ic Ec]]]].
    exists x, c. auto 10.
  - intros Hn Hi.
    destruct (_random_parts_total_row r db Hn Hi) as [x [c [_ [_ [_ [_ H]]]]]].
    eexists. exact H.
  - intros i x j c Hx Ex Hc Ec.
    destruct (random_parts_any_rows db i j x c Hx Ex Hc Ec)
      as [r' [Hi [_ H]]].
    exists r'. split; assumption.
  - intros r' parts H. apply _random_parts_Ok in H as [x [c [Hx [Hc ->]]]].
    apply noun_drawn_eligible in Hx as [Ix _].
    apply inbetweeny_drawn_eligible in Hc as [Ic _].
    destruct Ic as [<-|[]]. destruct Ix as [<-|[<-|[]]]; auto.
Qed.

(** ** Inserting fragments *)

Lemma _setup_empty_file : _setup empty_file = Ok fresh_db.
Proof. reflexivity. Qed.

Lemma noun_key_eqb_true (p s : string) (r : noun_row) :
  noun_key_eqb p s r = true <-> noun_key r = (p, s).
Proof.
  unfold noun_key_eqb, noun_key. rewrite andb_true_iff, !String.eqb_eq.
  split; [intros [-> ->]; reflexivity|intros H; inversion H; auto].
Qed.

Lemma existsb_noun_key (p s : string) (t : list noun_row) :
  existsb (noun_key_eqb p s) t = true <-> In (p, s) (map noun_key t).
Proof.
  rewrite existsb_exists, in_map_iff. split.
  - intros [r [Hin H]]. exists r. apply noun_key_eqb_true in H. auto.
  - intros [r [H Hin]]. exists r. apply noun_key_eqb_true in H. auto.
Qed.

Lemma existsb_inbetweeny_key (w : string) (t : list inbetweeny_row) :
  existsb (inbetweeny_key_eqb w) t = true <-> In w (map inbetweeny t).
Proof.
  rewrite existsb_exists, in_map_iff. unfold inbetweeny_key_eqb. split.
  - intros [r [Hin H]]. exists r. apply String.eqb_eq in H. auto.
  - intros [r [H Hin]]. exists r. apply String.eqb_eq in H. auto.
Qed.

Lemma add_noun_fresh (p s : string) (db : SnuskDb) :
  ~ stored_noun p s db ->
  add_noun p s db = (Ok true, Db (nouns db ++ [Noun p s (Integer 0)]) (inbetweenies db)).
Proof.
  intros H. unfold add_noun, insert_into_nouns.
  destruct (existsb (noun_key_eqb p s) (nouns db)) eqn:E; [|reflexivity].
  apply existsb_noun_key in E. contradiction.
Qed.

Lemma add_noun_duplicate (p s : string) (db : SnuskDb) :
  stored_noun p s db -> add_noun p s db = (Ok false, db).
Proof.
  intros H. unfold add_noun, insert_into_nouns.
  apply existsb_noun_key in H. rewrite H. reflexivity.
Qed.

Lemma add_inbetweeny_fresh (w : string) (db : SnuskDb) :
  ~ stored_inbetweeny w db ->
  add_inbetweeny w db = (Ok true, Db (nouns db) (inbetweenies db ++ [Inbetweeny w (Integer 0)])).
Proof.
  intros H. unfold add_inbetweeny, insert_into_inbetweenies.
  destruct (existsb (inbetweeny_key_eqb w) (inbetweenies db)) eqn:E;
    [|reflexivity].
  apply existsb_inbetweeny_key in E. contradiction.
Qed.

Lemma add_inbetweeny_duplicate (w : string) (db : SnuskDb) :
  stored_inbetweeny w db -> add_inbetweeny w db = (Ok false, db).
Proof.
  intros H. unfold add_inbetweeny, insert_into_inbetweenies.
  apply existsb_inbetweeny_key in H. rewrite H. reflexivity.
Qed.

Lemma stored_noun_dec (p s : string) (db : SnuskDb) :
  {stored_noun p s db} + {~ stored_noun p s db}.
Proof.
  unfold stored_noun.
  destruct (existsb (noun_key_eqb p s) (nouns db)) eqn:E.
  - left. apply existsb_noun_key. exact E.
  - right. intros H. apply existsb_noun_key in H. congruence.
Qed.

Lemma stored_inbetweeny_dec (w : string) (db : SnuskDb) :
  {stored_inbetweeny w db} + {~ stored_inbetweeny w db}.
Proof.
  unfold stored_inbetweeny.
  destruct (existsb (inbetweeny_key_eqb w) (inbetweenies db)) eqn:E.
  - left. apply existsb_inbetweeny_key. exact E.
  - right. intros H. apply existsb_inbetweeny_key in H. congruence.
Qed.

Lemma stored_noun_after_add (p s : string) (db : SnuskDb) :
  stored_noun p s (snd (add_noun p s db)).
Proof.
  destruct (stored_noun_dec p s db) as [H|H].
  - rewrite add_noun_duplicate by exact H. exact H.
  - rewrite add_noun_fresh by exact H. unfold stored_noun. simpl.
    rewrite map_app, in_app_iff. right. left. reflexivity.
Qed.

Lemma stored_inbetweeny_after_add (w : string) (db : SnuskDb) :
  stored_inbetweeny w (snd (add_inbetweeny w db)).
Proof.
  destruct (stored_inbetweeny_dec w db) as [H|H].
  - rewrite add_inbetweeny_duplicate by exact H. exact H.
  - rewrite add_inbetweeny_fresh by exact H. unfold stored_inbetweeny. simpl.
    rewrite map_app, in_app_iff. right. left. reflexivity.
Qed.

(** C4.  [add_noun] returns [True] and appends the pair with score 0 when no
    stored noun row has that (prefix, suffix), and returns [False], raising
    nothing, when one has; so the first call with a fresh pair returns [True]
    and the next call with the same pair returns [False].  [add_inbetweeny]
    does the same, keyed on the word. *)
Theorem add_noun_add_inbetweeny_contract (db : SnuskDb) :
  (forall p s,
     (~ stored_noun p s db ->
      add_noun p s db =
      (Ok true, Db (nouns db ++ [Noun p s (Integer 0)]) (inbetweenies db)) /\
      fst (add_noun p s (snd (add_noun p s db))) = Ok false) /\
     (stored_noun p s db -> fst (add_noun p s db) = Ok false) /\
     (exists b, fst (add_noun p s db) = Ok b)) /\
  (forall w,
     (~ stored_inbetweeny w db ->
      add_inbetweeny w db =
      (Ok true, Db (nouns db) (inbetweenies db ++ [Inbetweeny w (Integer 0)])) /\
      fst (add_inbetweeny w (snd (add_inbetweeny w db))) = Ok false) /\
     (stored_inbetweeny w db -> fst (add_inbetweeny w db) = Ok false) /\
     (exists b, fst (add_inbetweeny w db) = Ok b)).
Proof.
  split.
  - intros p s. split; [|split].
    + intros H. split; [apply add_noun_fresh; exact H|].
      rewrite add_noun_duplicate; [reflexivity|apply stored_noun_after_add].
    + intros H. rewrite add_noun_duplicate by exact H. reflexivity.
    + destruct (stored_noun_dec p s db) as [H|H].
      * exists false. rewrite add_noun_duplicate by exact H. reflexivity.
      * exists true. rewrite add_noun_fresh by exact H. reflexivity.
  - intros w. split; [|split].
    + intros H. split; [apply add_inbetweeny_fresh; exact H|].
      rewrite add_inbetweeny_duplicate;
        [reflexivity|apply stored_inbetweeny_after_add].
    + intros H. rewrite add_inbetweeny_duplicate by exact H. reflexivity.
    + destruct (stored_inbetweeny_dec w db) as [H|H].
      * exists false. rewrite add_inbetweeny_duplicate by exact H. reflexivity.
      * exists true. rewrite add_inbetweeny_fresh by exact H. reflexivity.
Qed.

(** C10.  When [add_noun] or [add_inbetweeny] returns [False] the store it
    leaves is the store it was called on: the same rows with the same
    scores, the already present fragment included. *)
Theorem add_duplicate_leaves_store (db : SnuskDb) :
  (forall p s,
     fst (add_noun p s db) = Ok false ->
     snd (add_noun p s db) = db /\
     stored_noun p s db /\
     score_of_noun p s (snd (add_noun p s db)) = score_of_noun p s db) /\
  (forall w,
     fst (add_inbetweeny w db) = Ok false ->
     snd (add_inbetweeny w db) = db /\
     stored_inbetweeny w db /\
     score_of_inbetweeny w (snd (add_inbetweeny w db)) =
     score_of_inbetweeny w db).
Proof.
  split.
  - intros p s H. destruct (stored_noun_dec p s db) as [Hs|Hs].
    + rewrite add_noun_duplicate by exact Hs. simpl. auto.
    + rewrite add_noun_fresh in H by exact Hs. discriminate.
  - intros w H. destruct (stored_inbetweeny_dec w db) as [Hs|Hs].
    + rewrite add_inbetweeny_duplicate by exact Hs. simpl. auto.
    + rewrite add_inbetweeny_fresh in H by exact Hs. discriminate.
Qed.

(** ** Adjusting scores *)

Lemma bind_int_Ok (delta : Z) : is_int64 delta = true -> bind_int delta = Ok delta.
Proof. intros H. unfold bind_int. rewrite H. reflexivity. Qed.

Lemma bind_int_Raise (delta : Z) :
  is_int64 delta = false -> bind_int delta = Raise OverflowError.
Proof. intros H. unfold bind_int. rewrite H. reflexivity. Qed.

Lemma noun_key_update (delta : Z) (p s : string) (t : list noun_row) :
  map noun_key (update_noun_score delta p s t) = map noun_key t.
Proof.
  unfold update_noun_score. rewrite map_map. apply map_ext.
  intros r. destruct (noun_key_eqb p s r); reflexivity.
Qed.

Lemma inbetweeny_update (delta : Z) (w : string) (t : list inbetweeny_row) :
  map inbetweeny (update_inbetweeny_score delta w t) = map inbetweeny t.
Proof.
  unfold update_inbetweeny_score. rewrite map_map. apply map_ext.
  intros r. destruct (inbetweeny_key_eqb w r); reflexivity.
Qed.

(** The store an adjustment leaves: the one it found when the delta cannot
    be bound, the updated one otherwise. *)
Lemma add_noun_score_store (p s : string) (delta : Z) (db : SnuskDb) :
  snd (add_noun_score p s delta db) =
  if is_int64 delta
  then Db (update_noun_score delta p s (nouns db)) (inbetweenies db)
  else db.
Proof.
  unfold add_noun_score, bind_int. destruct (is_int64 delta); reflexivity.
Qed.

Lemma add_inbetweeny_score_store (w : string) (delta : Z) (db : SnuskDb) :
  snd (add_inbetweeny_score w delta db) =
  if is_int64 delta
  then Db (nouns db) (update_inbetweeny_score delta w (inbetweenies db))
  else db.
Proof.
  unfold add_inbetweeny_score, bind_int. destruct (is_int64 delta); reflexivity.
Qed.

Lemma add_noun_score_keys (p s : string) (delta : Z) (db : SnuskDb) :
  map noun_key (nouns (snd (add_noun_score p s delta db))) =
    map noun_key (nouns db) /\
  inbetweenies (snd (add_noun_score p s delta db)) = inbetweenies db.
Proof.
  rewrite add_noun_score_store. destruct (is_int64 delta); simpl.
  - split; [apply noun_key_update|reflexivity].
  - split; reflexivity.
Qed.

Lemma add_inbetweeny_score_keys (w : string) (delta : Z) (db : SnuskDb) :
  map inbetweeny (inbetweenies (snd (add_inbetweeny_score w delta db))) =
    map inbetweeny (inbetweenies db) /\
  nouns (snd (add_inbetweeny_score w delta db)) = nouns db.
Proof.
  rewrite add_inbetweeny_score_store. destruct (is_int64 delta); simpl.
  - split; [apply inbetweeny_update|reflexivity].
  - split; reflexivity.
Qed.

(** The [UPDATE] adds the delta to the score of every selected row. *)
Lemma select_noun_score_update (delta : Z) (p s : string) (t : list noun_row) :
  select_noun_score p s (update_noun_score delta p s t) =
  map (fun n => sql_add n delta) (select_noun_score p s t).
Proof.
  unfold select_noun_score, update_noun_score.
  induction t as [|r t IH]; simpl; [reflexivity|].
  destruct (noun_key_eqb p s r) eqn:E; simpl.
  - unfold noun_key_eqb in *. simpl. rewrite E. simpl. rewrite IH. reflexivity.
  - rewrite E. exact IH.
Qed.

Lemma select_inbetweeny_score_update (delta : Z) (w : string)
    (t : list inbetweeny_row) :
  select_inbetweeny_score w (update_inbetweeny_score delta w t) =
  map (fun n => sql_add n delta) (select_inbetweeny_score w t).
Proof.
  unfold select_inbetweeny_score, update_inbetweeny_score.
  induction t as [|r t IH]; simpl; [reflexivity|].
  destruct (inbetweeny_key_eqb w r) eqn:E; simpl.
  - unfold inbetweeny_key_eqb in *. simpl. rewrite E. simpl. rewrite IH.
    reflexivity.
  - rewrite E. exact IH.
Qed.

(** A row that is not selected keeps its score. *)
Lemma update_noun_score_absent (delta : Z) (p s : string) (t : list noun_row) :
  ~ In (p, s) (map noun_key t) -> update_noun_score delta p s t = t.
Proof.
  intros H. unfold update_noun_score. rewrite <- (map_id t) at 2.
  apply map_ext_in. intros r Hr.
  destruct (noun_key_eqb p s r) eqn:E; [|reflexivity].
  exfalso. apply H. apply existsb_noun_key, existsb_exists. eauto.
Qed.

Lemma update_inbetweeny_score_absent (delta : Z) (w : string)
    (t : list inbetweeny_row) :
  ~ In w (map inbetweeny t) -> update_inbetweeny_score delta w t = t.
Proof.
  intros H. unfold update_inbetweeny_score. rewrite <- (map_id t) at 2.
  apply map_ext_in. intros r Hr.
  destruct (inbetweeny_key_eqb w r) eqn:E; [|reflexivity].
  exfalso. apply H. apply existsb_inbetweeny_key, existsb_exists. eauto.
Qed.

Lemma score_of_noun_stored (p s : string) (db : SnuskDb) :
  stored_noun p s db <-> exists z, score_of_noun p s db = Some z.
Proof.
  unfold stored_noun, score_of_noun, select_noun_score.
  rewrite <- existsb_noun_key.
  induction (nouns db) as [|r t IH]; simpl.
  - split; [discriminate|intros [z H]; discriminate].
  - destruct (noun_key_eqb p s r); simpl.
    + split; eauto.
    + exact IH.
Qed.

Lemma score_of_inbetweeny_stored (w : string) (db : SnuskDb) :
  stored_inbetweeny w db <-> exists z, score_of_inbetweeny w db = Some z.
Proof.
  unfold stored_inbetweeny, score_of_inbetweeny, select_inbetweeny_score.
  rewrite <- existsb_inbetweeny_key.
  induction (inbetweenies db) as [|r t IH]; simpl.
  - split; [discriminate|intros [z H]; discriminate].
  - destruct (inbetweeny_key_eqb w r); simpl.
    + split; eauto.
    + exact IH.
Qed.

Lemma score_of_noun_update (delta : Z) (p s : string) (db : SnuskDb) :
  score_of_noun p s
    (Db (update_noun_score delta p s (nouns db)) (inbetweenies db)) =
  option_map (fun n => sql_add n delta) (score_of_noun p s db).
Proof.
  unfold score_of_noun. simpl. rewrite select_noun_score_update.
  destruct (select_noun_score p s (nouns db)); reflexivity.
Qed.

Lemma score_of_inbetweeny_update (delta : Z) (w : string) (db : SnuskDb) :
  score_of_inbetweeny w
    (Db (nouns db) (update_inbetweeny_score delta w (inbetweenies db))) =
  option_map (fun n => sql_add n delta) (score_of_inbetweeny w db).
Proof.
  unfold score_of_inbetweeny. simpl. rewrite select_inbetweeny_score_update.
  destruct (select_inbetweeny_score w (inbetweenies db)); reflexivity.
Qed.

(** One call with a delta that can be bound: the value returned is the score
    the call leaves. *)
Lemma add_noun_score_spec (p s : string) (delta : Z) (db : SnuskDb) :
  is_int64 delta = true ->
  add_noun_score p s delta db =
  (Ok (option_map (fun n => sql_add n delta) (score_of_noun p s db)),
   Db (update_noun_score delta p s (nouns db)) (inbetweenies db)) /\
  fst (add_noun_score p s delta db) =
  Ok (score_of_noun p s (snd (add_noun_score p s delta db))).
Proof.
  intros H. unfold add_noun_score. rewrite bind_int_Ok by exact H.
  cbv beta zeta. split; [|reflexivity]. do 2 f_equal.
  exact (score_of_noun_update delta p s db).
Qed.

Lemma add_inbetweeny_score_spec (w : string) (delta : Z) (db : SnuskDb) :
  is_int64 delta = true ->
  add_inbetweeny_score w delta db =
  (Ok (option_map (fun n => sql_add n delta) (score_of_inbetweeny w db)),
   Db (nouns db) (update_inbetweeny_score delta w (inbetweenies db))) /\
  fst (add_inbetweeny_score w delta db) =
  Ok (score_of_inbetweeny w (snd (add_inbetweeny_score w delta db))).
Proof.
  intros H. unfold add_inbetweeny_score. rewrite bind_int_Ok by exact H.
  cbv beta zeta. split; [|reflexivity]. do 2 f_equal.
  exact (score_of_inbetweeny_update delta w db).
Qed.

(** A delta that does not fit 64 bits is refused before anything changes. *)
Lemma add_noun_score_overflow (p s : string) (delta : Z) (db : SnuskDb) :
  is_int64 delta = false ->
  add_noun_score p s delta db = (Raise OverflowError, db).
Proof.
  intros H. unfold add_noun_score. rewrite bind_int_Raise by exact H.
  reflexivity.
Qed.

Lemma add_inbetweeny_score_overflow (w : string) (delta : Z) (db : SnuskDb) :
  is_int64 delta = false ->
  add_inbetweeny_score w delta db = (Raise OverflowError, db).
Proof.
  intros H. unfold add_inbetweeny_score. rewrite bind_int_Raise by exact H.
  reflexivity.
Qed.

Lemma sql_add_int64 (z delta : Z) :
  is_int64 (z + delta) = true -> sql_add (Integer z) delta = Integer (z + delta).
Proof. intros H. unfold sql_add. rewrite H. reflexivity. Qed.

Lemma add_noun_scores_spec (p s : string) (deltas : list Z) :
  forall (db : SnuskDb) (z : Z),
    score_of_noun p s db = Some (Integer z) ->
    int64_scores z deltas = true ->
    fst (add_noun_scores p s deltas db) =
      map (fun v => Ok (Some (Integer v))) (running_scores z deltas) /\
    score_of_noun p s (snd (add_noun_scores p s deltas db)) =
      Some (Integer (z + sum deltas)).
Proof.
  induction deltas as [|d deltas IH]; intros db z Hz Hr;
    cbn [add_noun_scores running_scores sum fold_right map int64_scores] in *.
  - rewrite Z.add_0_r. split; [reflexivity|exact Hz].
  - apply andb_true_iff in Hr as [Hr Hr3].
    apply andb_true_iff in Hr as [Hr1 Hr2].
    destruct (add_noun_score_spec p s d db Hr1) as [E _]. rewrite E.
    assert (Hz1 : score_of_noun p s
              (Db (update_noun_score d p s (nouns db)) (inbetweenies db)) =
              Some (Integer (z + d))).
    { rewrite score_of_noun_update, Hz. cbn [option_map].
      rewrite sql_add_int64 by exact Hr2. reflexivity. }
    destruct (IH _ _ Hz1 Hr3) as [IH1 IH2].
    destruct (add_noun_scores p s deltas
                (Db (update_noun_score d p s (nouns db)) (inbetweenies db)))
      as [vs db2].
    cbn [fst snd] in *. rewrite IH1, IH2, Hz. cbn [option_map].
    rewrite sql_add_int64 by exact Hr2. rewrite Z.add_assoc.
    split; reflexivity.
Qed.

Lemma add_inbetweeny_scores_spec (w : string) (deltas : list Z) :
  forall (db : SnuskDb) (z : Z),
    score_of_inbetweeny w db = Some (Integer z) ->
    int64_scores z deltas = true ->
    fst (add_inbetweeny_scores w deltas db) =
      map (fun v => Ok (Some (Integer v))) (running_scores z deltas) /\
    score_of_inbetweeny w (snd (add_inbetweeny_scores w deltas db)) =
      Some (Integer (z + sum deltas)).
Proof.
  induction deltas as [|d deltas IH]; intros db z Hz Hr;
    cbn [add_inbetweeny_scores running_scores sum fold_right map
         int64_scores] in *.
  - rewrite Z.add_0_r. split; [reflexivity|exact Hz].
  - apply andb_true_iff in Hr as [Hr Hr3].
    apply andb_true_iff in Hr as [Hr1 Hr2].
    destruct (add_inbetweeny_score_spec w d db Hr1) as [E _]. rewrite E.
    assert (Hz1 : score_of_inbetweeny w
              (Db (nouns db) (update_inbetweeny_score d w (inbetweenies db))) =
              Some (Integer (z + d))).
    { rewrite score_of_inbetweeny_update, Hz. cbn [option_map].
      rewrite sql_add_int64 by exact Hr2. reflexivity. }
    destruct (IH _ _ Hz1 Hr3) as [IH1 IH2].
    destruct (add_inbetweeny_scores w deltas
                (Db (nouns db) (update_inbetweeny_score d w (inbetweenies db))))
      as [vs db2].
    cbn [fst snd] in *. rewrite IH1, IH2, Hz. cbn [option_map].
    rewrite sql_add_int64 by exact Hr2. rewrite Z.add_assoc.
    split; reflexivity.
Qed.

Lemma nth_error_running_scores (deltas : list Z) : forall (z : Z) (n : nat),
  n < length deltas ->
  nth_error (running_scores z deltas) n = Some (z + sum (firstn (S n) deltas))%Z.
Proof.
  induction deltas as [|d deltas IH]; intros z n Hn; simpl in Hn; [lia|].
  destruct n as [|n].
  - cbn. f_equal. destruct deltas; cbn; lia.
  - cbn [running_scores nth_error]. rewrite IH by lia.
    f_equal. change (firstn (S (S n)) (d :: deltas)) with
      (d :: firstn (S n) deltas).
    unfold sum. cbn [fold_right]. lia.
Qed.

Lemma length_running_scores (deltas : list Z) : forall z,
  length (running_scores z deltas) = length deltas.
Proof. induction deltas; intros z; simpl; auto. Qed.

(** C3 (amended).  For a fragment stored with the integer score [z] and a
    sequence of deltas d1..dn, positive or negative, such that every delta
    and every score z + d1 + ... + di fits a signed 64-bit integer: the n
    calls of [add_noun_score] return, in order, z + d1, z + d1 + d2, ..., and
    the score in the final store is z + sum(d1..dn).  Each call whose delta
    can be bound returns the score as the call leaves it.  The same holds
    for [add_inbetweeny_score]. *)
Theorem score_additivity (db : SnuskDb) (deltas : list Z) :
  (forall p s z,
     score_of_noun p s db = Some (Integer z) ->
     int64_scores z deltas = true ->
     score_of_noun p s (snd (add_noun_scores p s deltas db)) =
       Some (Integer (z + sum deltas)) /\
     length (fst (add_noun_scores p s deltas db)) = length deltas /\
     (forall n, n < length deltas ->
        nth_error (fst (add_noun_scores p s deltas db)) n =
        Some (Ok (Some (Integer (z + sum (firstn (S n) deltas)))))) /\
     (forall d db', is_int64 d = true ->
        fst (add_noun_score p s d db') =
        Ok (score_of_noun p s (snd (add_noun_score p s d db'))))) /\
  (forall w z,
     score_of_inbetweeny w db = Some (Integer z) ->
     int64_scores z deltas = true ->
     score_of_inbetweeny w (snd (add_inbetweeny_scores w deltas db)) =
       Some (Integer (z + sum deltas)) /\
     length (fst (add_inbetweeny_scores w deltas db)) = length deltas /\
     (forall n, n < length deltas ->
        nth_error (fst (add_inbetweeny_scores w deltas db)) n =
        Some (Ok (Some (Integer (z + sum (firstn (S n) deltas)))))) /\
     (forall d db', is_int64 d = true ->
        fst (add_inbetweeny_score w d db') =
        Ok (score_of_inbetweeny w (snd (add_inbetweeny_score w d db'))))).
Proof.
  split.
  - intros p s z Hz Hr.
    destruct (add_noun_scores_spec p s deltas db z Hz Hr) as [H1 H2].
    rewrite H1, H2. repeat split.
    + rewrite length_map. apply length_running_scores.
    + intros n Hn. rewrite nth_error_map, nth_error_running_scores by exact Hn.
      reflexivity.
    + intros d db' Hd. apply add_noun_score_spec. exact Hd.
  - intros w z Hz Hr.
    destruct (add_inbetweeny_scores_spec w deltas db z Hz Hr) as [H1 H2].
    rewrite H1, H2. repeat split.
    + rewrite length_map. apply length_running_scores.
    + intros n Hn. rewrite nth_error_map, nth_error_running_scores by exact Hn.
      reflexivity.
    + intros d db' Hd. apply add_inbetweeny_score_spec. exact Hd.
Qed.

(** ** Fragments are stored exactly when they were inserted *)

Lemma stored_noun_run_call (c : call) (db : SnuskDb) (p s : string) :
  stored_noun p s (run_call c db) <-> stored_noun p s db \/ c = AddNoun p s.
Proof.
  destruct c as [p' s'|w|p' s' d|w d]; simpl.
  - destruct (stored_noun_dec p' s' db) as [H|H].
    + rewrite add_noun_duplicate by exact H. simpl. split; [tauto|].
      intros [H'|H']; [exact H'|]. inversion H'; subst. exact H.
    + rewrite add_noun_fresh by exact H. unfold stored_noun. simpl.
      rewrite map_app, in_app_iff. simpl. unfold noun_key at 2. simpl.
      split.
      * intros [H'|[H'|[]]]; [tauto|]. inversion H'; subst. tauto.
      * intros [H'|H']; [tauto|]. inversion H'; subst. tauto.
  - unfold add_inbetweeny.
    destruct (insert_into_inbetweenies w (inbetweenies db)) as [t|[]];
      simpl; unfold stored_noun; simpl; split; try tauto;
      intros [H|H]; try exact H; discriminate.
  - unfold stored_noun. rewrite (proj1 (add_noun_score_keys p' s' d db)).
    split; [tauto|]. intros [H|H]; [exact H|discriminate].
  - unfold stored_noun. rewrite (proj2 (add_inbetweeny_score_keys w d db)).
    split; [tauto|]. intros [H|H]; [exact H|discriminate].
Qed.

Lemma stored_inbetweeny_run_call (c : call) (db : SnuskDb) (w : string) :
  stored_inbetweeny w (run_call c db) <->
  stored_inbetweeny w db \/ c = AddInbetweeny w.
Proof.
  destruct c as [p' s'|w'|p' s' d|w' d]; simpl.
  - unfold add_noun.
    destruct (insert_into_nouns p' s' (nouns db)) as [t|[]];
      simpl; unfold stored_inbetweeny; simpl; split; try tauto;
      intros [H|H]; try exact H; discriminate.
  - destruct (stored_inbetweeny_dec w' db) as [H|H].
    + rewrite add_inbetweeny_duplicate by exact H. simpl. split; [tauto|].
      intros [H'|H']; [exact H'|]. inversion H'; subst. exact H.
    + rewrite add_inbetweeny_fresh by exact H. unfold stored_inbetweeny. simpl.
      rewrite map_app, in_app_iff. simpl.
      split.
      * intros [H'|[H'|[]]]; [tauto|]. subst. tauto.
      * intros [H'|H']; [tauto|]. inversion H'; subst. tauto.
  - unfold stored_inbetweeny. rewrite (proj2 (add_noun_score_keys p' s' d db)).
    split; [tauto|]. intros [H|H]; [exact H|discriminate].
  - unfold stored_inbetweeny.
    rewrite (proj1 (add_inbetweeny_score_keys w' d db)).
    split; [tauto|]. intros [H|H]; [exact H|discriminate].
Qed.

Lemma stored_noun_run_calls (cs : list call) (p s : string) :
  forall db,
    stored_noun p s (run_calls cs db) <->
    stored_noun p s db \/ In (AddNoun p s) cs.
Proof.
  unfold run_calls. induction cs as [|c cs IH]; intros db; simpl.
  - tauto.
  - rewrite IH, stored_noun_run_call. split.
    + intros [[H|H]|H]; auto.
    + intros [H|[H|H]]; auto.
Qed.

Lemma stored_inbetweeny_run_calls (cs : list call) (w : string) :
  forall db,
    stored_inbetweeny w (run_calls cs db) <->
    stored_inbetweeny w db \/ In (AddInbetweeny w) cs.
Proof.
  unfold run_calls. induction cs as [|c cs IH]; intros db; simpl.
  - tauto.
  - rewrite IH, stored_inbetweeny_run_call. split.
    + intros [[H|H]|H]; auto.
    + intros [H|[H|H]]; auto.
Qed.

Lemma add_noun_score_unknown (p s : string) (delta : Z) (db : SnuskDb) :
  ~ stored_noun p s db ->
  add_noun_score p s delta db =
  (if is_int64 delta then Ok None else Raise OverflowError, db).
Proof.
  intros H. destruct (is_int64 delta) eqn:Hd.
  - destruct (add_noun_score_spec p s delta db Hd) as [-> _].
    rewrite update_noun_score_absent by exact H.
    destruct (score_of_noun p s db) as [z|] eqn:E.
    + exfalso. apply H. apply score_of_noun_stored. eauto.
    + destruct db; reflexivity.
  - apply add_noun_score_overflow. exact Hd.
Qed.

Lemma add_inbetweeny_score_unknown (w : string) (delta : Z) (db : SnuskDb) :
  ~ stored_inbetweeny w db ->
  add_inbetweeny_score w delta db =
  (if is_int64 delta then Ok None else Raise OverflowError, db).
Proof.
  intros H. destruct (is_int64 delta) eqn:Hd.
  - destruct (add_inbetweeny_score_spec w delta db Hd) as [-> _].
    rewrite update_inbetweeny_score_absent by exact H.
    destruct (score_of_inbetweeny w db) as [z|] eqn:E.
    + exfalso. apply H. apply score_of_inbetweeny_stored. eauto.
    + destruct db; reflexivity.
  - apply add_inbetweeny_score_overflow. exact Hd.
Qed.

(** C5.  [add_noun_score] on a (prefix, suffix) that was never inserted (it
    is not in the initial store and no [add_noun] call of the history names
    it) returns [None] and changes nothing, whereas on a stored pair it
    returns a number: the absent result differs from every score, 0
    included.  The same holds for [add_inbetweeny_score] on an unknown
    word.  (This is for a delta that can be bound; one that does not fit 64
    bits is refused with [OverflowError], the store unchanged as well.) *)
Theorem add_score_unknown_fragment (db : SnuskDb) (cs : list call) (delta : Z) :
  (forall p s,
     ~ stored_noun p s db -> ~ In (AddNoun p s) cs ->
     add_noun_score p s delta (run_calls cs db) =
     (if is_int64 delta then Ok None else Raise OverflowError,
      run_calls cs db)) /\
  (forall p s,
     stored_noun p s db \/ In (AddNoun p s) cs ->
     is_int64 delta = true ->
     exists z, fst (add_noun_score p s delta (run_calls cs db)) = Ok (Some z)) /\
  (forall w,
     ~ stored_inbetweeny w db -> ~ In (AddInbetweeny w) cs ->
     add_inbetweeny_score w delta (run_calls cs db) =
     (if is_int64 delta then Ok None else Raise OverflowError,
      run_calls cs db)) /\
  (forall w,
     stored_inbetweeny w db \/ In (AddInbetweeny w) cs ->
     is_int64 delta = true ->
     exists z,
       fst (add_inbetweeny_score w delta (run_calls cs db)) = Ok (Some z)) /\
  (forall z : sql_number, None <> Some z) /\
  (forall z : sql_number, Ok None <> Ok (Some z)).
Proof.
  split; [|split; [|split; [|split; [|split]]]].
  - intros p s H1 H2. apply add_noun_score_unknown.
    rewrite stored_noun_run_calls. tauto.
  - intros p s H Hd. apply stored_noun_run_calls in H.
    apply score_of_noun_stored in H as [z Hz].
    destruct (add_noun_score_spec p s delta (run_calls cs db) Hd) as [-> _].
    rewrite Hz. simpl. eauto.
  - intros w H1 H2. apply add_inbetweeny_score_unknown.
    rewrite stored_inbetweeny_run_calls. tauto.
  - intros w H Hd. apply stored_inbetweeny_run_calls in H.
    apply score_of_inbetweeny_stored in H as [z Hz].
    destruct (add_inbetweeny_score_spec w delta (run_calls cs db) Hd)
      as [-> _].
    rewrite Hz. simpl. eauto.
  - discriminate.
  - discriminate.
Qed.

(** ** Substrings *)

Lemma prefix_nil (s : string) : String.prefix EmptyString s = true.
Proof. destruct s; reflexivity. Qed.

Lemma prefix_app_r (t : string) : forall s b,
  String.prefix t s = true -> String.prefix t (s ++ b) = true.
Proof.
  induction t as [|c t IH]; intros s b H; [apply prefix_nil|].
  destruct s as [|c' s]; simpl in *; [discriminate|].
  destruct (ascii_dec c c'); [apply IH; exact H|discriminate].
Qed.

Lemma prefix_app_same (t b : string) : String.prefix t (t ++ b) = true.
Proof.
  induction t as [|c t IH]; simpl; [apply prefix_nil|].
  destruct (ascii_dec c c); [exact IH|congruence].
Qed.

Lemma contains_prefix (t s : string) :
  String.prefix t s = true -> contains t s = true.
Proof. intros H. destruct s; cbn [contains]; rewrite H; reflexivity. Qed.

Lemma contains_app_l (t s : string) (a : string) :
  contains t s = true -> contains t (a ++ s) = true.
Proof.
  intros H. induction a as [|c a IH]; [exact H|].
  change (String c a ++ s)%string with (String c (a ++ s)%string).
  cbn [contains]. rewrite IH. apply orb_true_r.
Qed.

Lemma contains_app_r (t : string) : forall s b,
  contains t s = true -> contains t (s ++ b) = true.
Proof.
  induction s as [|c s IH]; intros b H.
  - cbn [contains] in H. rewrite orb_false_r in H. apply contains_prefix.
    apply (prefix_app_r t EmptyString b). exact H.
  - cbn [contains] in H. apply orb_true_iff in H as [H|H].
    + apply contains_prefix. apply prefix_app_r. exact H.
    + change (String c s ++ b)%string with (String c (s ++ b)%string).
      cbn [contains]. rewrite (IH b H). apply orb_true_r.
Qed.

Lemma contains_app (t a b : string) : contains t (a ++ t ++ b) = true.
Proof. apply contains_app_l, contains_prefix, prefix_app_same. Qed.

(** ** The composer *)

Lemma _random_parts_five (r : sql_random) (db : SnuskDb) (parts : list string) :
  _random_parts r db = Ok parts ->
  exists A B C D E, parts = [A; B; C; D; E].
Proof.
  intros H. apply _random_parts_Ok in H as [x [c [_ [_ ->]]]].
  eexists _, _, _, _, _. reflexivity.
Qed.

Lemma choice_lt {A : Type} (k : nat) (seq : list A) :
  seq <> [] -> exists x, choice k seq = Ok x /\ In x seq.
Proof.
  intros H. unfold choice.
  destruct (nth_error seq (k mod length seq)) as [x|] eqn:E.
  - exists x. split; [reflexivity|]. eapply nth_error_In; eassumption.
  - apply nth_error_None in E.
    pose proof (Nat.mod_upper_bound k (length seq)) as Hlt.
    destruct seq; [contradiction|]. simpl in *. lia.
Qed.

(** C6.  [snusk] applies the template to the unmodified draw: two fused
    parts, a space, the connector, a space, two fused parts.  When every
    eligible noun row is ("don", "donet"), every eligible connector row is
    "i" and there is one of each, [snusk] returns "dondonet i dondonet" for
    every random outcome. *)
Theorem snusk_plain_template (r : sql_random) (db : SnuskDb) :
  (forall A B C D E,
     _random_parts r db = Ok [A; B; C; D; E] ->
     snusk r db = Ok (A ++ B ++ " " ++ C ++ " " ++ D ++ E)%string) /\
  (eligible_nouns db <> [] ->
   (forall x, In x (eligible_nouns db) -> prefix x = "don" /\ suffix x = "donet") ->
   eligible_inbetweenies db <> [] ->
   (forall c, In c (eligible_inbetweenies db) -> inbetweeny c = "i") ->
   snusk r db = Ok "dondonet i dondonet").
Proof.
  split.
  - intros A B C D E H. unfold snusk. rewrite H. reflexivity.
  - intros Hn Hdon Hi Hw.
    destruct (_random_parts_total r db Hn Hi)
      as [a [b [c [d [e [Ha [Hb [Hc [Hd [He H]]]]]]]]]].
    unfold snusk. rewrite H.
    destruct (Hdon a Ha) as [-> _]. destruct (Hdon b Hb) as [_ ->].
    destruct (Hdon d Hd) as [-> _]. destruct (Hdon e He) as [_ ->].
    rewrite (Hw c Hc). reflexivity.
Qed.

(** C7.  [example_snusk a b] draws a tuple [[A; B; C; D; E]] and flips a coin:
    on [True] it sets slot 0 to [a] and slot 4 to [b], on [False] it sets slot
    1 to [b] and slot 3 to [a]; the other slots stay as drawn and the
    template is applied to the result.  Both outcomes of the coin occur. *)
Theorem example_snusk_branches (r : sql_random) (db : SnuskDb) (a b : string) :
  (forall k parts,
     _random_parts r db = Ok parts ->
     exists A B C D E coin,
       parts = [A; B; C; D; E] /\
       choice k [false; true] = Ok coin /\
       example_snusk r k db a b =
       Ok (if coin
           then (a ++ B ++ " " ++ C ++ " " ++ D ++ b)%string
           else (A ++ b ++ " " ++ C ++ " " ++ a ++ E)%string)) /\
  (exists k, choice k [false; true] = Ok true) /\
  (exists k, choice k [false; true] = Ok false).
Proof.
  split; [|split].
  - intros k parts H.
    destruct (_random_parts_five r db parts H) as [A [B [C [D [E ->]]]]].
    destruct (choice_lt k [false; true]) as [coin [Hc _]]; [discriminate|].
    exists A, B, C, D, E, coin. split; [reflexivity|]. split; [exact Hc|].
    unfold example_snusk. rewrite H. cbn [bind]. rewrite Hc. cbn [bind].
    destruct coin; reflexivity.
  - exists 1. reflexivity.
  - exists 0. reflexivity.
Qed.

(** C8 (amended).  With an eligible noun and an eligible connector,
    [directed_snusk "raek"] draws a tuple from eligible rows, overwrites the
    one slot whose index [random.choice] takes from 0, 1, 3, 4 (with "raek"
    for 0 and 3, with "raekern" for 1 and 4), leaves the other slots as
    drawn and applies the template.  The output always contains "raek"; for
    index 1 or 4 it contains "raekern" as well, so the two are not
    exclusive.  Each of the four indices is chosen by some random outcome. *)
Theorem directed_snusk_raek (r : sql_random) (k : nat) (db : SnuskDb) :
  (eligible_nouns db <> [] -> eligible_inbetweenies db <> [] ->
   exists a b c d e i out,
     In a (eligible_nouns db) /\ In b (eligible_nouns db) /\
     In c (eligible_inbetweenies db) /\
     In d (eligible_nouns db) /\ In e (eligible_nouns db) /\
     _random_parts r db =
       Ok [prefix a; suffix b; inbetweeny c; prefix d; suffix e] /\
     choice k [0; 1; 3; 4] = Ok i /\
     directed_snusk r k db "raek" = Ok out /\
     ((i = 0 /\
       out = ("raek" ++ suffix b ++ " " ++ inbetweeny c ++ " " ++
              prefix d ++ suffix e)%string) \/
      (i = 1 /\
       out = (prefix a ++ "raekern" ++ " " ++ inbetweeny c ++ " " ++
              prefix d ++ suffix e)%string) \/
      (i = 3 /\
       out = (prefix a ++ suffix b ++ " " ++ inbetweeny c ++ " " ++
              "raek" ++ suffix e)%string) \/
      (i = 4 /\
       out = (prefix a ++ suffix b ++ " " ++ inbetweeny c ++ " " ++
              prefix d ++ "raekern")%string)) /\
     contains "raek" out = true /\
     (i = 1 \/ i = 4 -> contains "raekern" out = true)) /\
  (forall i, In i [0; 1; 3; 4] -> exists k', choice k' [0; 1; 3; 4] = Ok i).
Proof.
  split.
  - intros Hn Hi.
    destruct (_random_parts_total r db Hn Hi)
      as [a [b [c [d [e [Ha [Hb [Hc [Hd [He H]]]]]]]]]].
    destruct (choice_lt k [0; 1; 3; 4]) as [i [Hk Hin]]; [discriminate|].
    assert (Hout : directed_snusk r k db "raek" =
      (parts <- setitem [prefix a; suffix b; inbetweeny c; prefix d; suffix e] i
                 (if existsb (Nat.eqb i) [0; 3] then "raek"
                  else ("raek" ++ "ern")%string) ;;
       _format_parts parts)).
    { unfold directed_snusk. rewrite H. cbn [bind]. rewrite Hk. reflexivity. }
    destruct Hin as [<-|[<-|[<-|[<-|[]]]]];
      eexists a, b, c, d, e, _, _; repeat (split; [eassumption|]);
      (split; [rewrite Hout; reflexivity|]); (split; [|split]).
    + left. split; reflexivity.
    + apply contains_prefix, prefix_app_same.
    + intros [Hi'|Hi']; discriminate.
    + right. left. split; reflexivity.
    + apply contains_app_l, contains_prefix. reflexivity.
    + intros _. apply contains_app_l, contains_prefix. reflexivity.
    + right. right. left. split; reflexivity.
    + do 5 apply contains_app_l. apply contains_prefix, prefix_app_same.
    + intros [Hi'|Hi']; discriminate.
    + right. right. right. split; reflexivity.
    + do 6 apply contains_app_l. reflexivity.
    + intros _. do 6 apply contains_app_l. reflexivity.
  - intros i [<-|[<-|[<-|[<-|[]]]]].
    + exists 0. reflexivity.
    + exists 1. reflexivity.
    + exists 2. reflexivity.
    + exists 3. reflexivity.
Qed.

(** ** Invariant I1 and [find_noun] *)

Lemma unique_fragments_fresh_db : unique_fragments fresh_db.
Proof.
  split; simpl; (constructor; [intros []|constructor]).
Qed.

Lemma NoDup_snoc {A : Type} (l : list A) (x : A) :
  NoDup l -> ~ In x l -> NoDup (l ++ [x]).
Proof.
  intros Hl Hx. apply NoDup_app.
  - exact Hl.
  - constructor; [intros []|constructor].
  - intros a Ha [<-|[]]. contradiction.
Qed.

(** No call breaks I1. *)
Lemma unique_fragments_run_call (c : call) (db : SnuskDb) :
  unique_fragments db -> unique_fragments (run_call c db).
Proof.
  intros [Hn Hi]. destruct c as [p s|w|p s d|w d]; simpl.
  - destruct (stored_noun_dec p s db) as [H|H].
    + rewrite add_noun_duplicate by exact H. split; assumption.
    + rewrite add_noun_fresh by exact H. split; [|exact Hi]. simpl.
      rewrite map_app. apply NoDup_snoc; assumption.
  - destruct (stored_inbetweeny_dec w db) as [H|H].
    + rewrite add_inbetweeny_duplicate by exact H. split; assumption.
    + rewrite add_inbetweeny_fresh by exact H. split; [exact Hn|]. simpl.
      rewrite map_app. apply NoDup_snoc; assumption.
  - destruct (add_noun_score_keys p s d db) as [E1 E2].
    split; [rewrite E1|rewrite E2]; assumption.
  - destruct (add_inbetweeny_score_keys w d db) as [E1 E2].
    split; [rewrite E2|rewrite E1]; assumption.
Qed.

Lemma unique_fragments_run_calls (cs : list call) : forall db,
  unique_fragments db -> unique_fragments (run_calls cs db).
Proof.
  unfold run_calls. induction cs as [|c cs IH]; intros db H; simpl.
  - exact H.
  - apply IH, unique_fragments_run_call, H.
Qed.

(** The index holds the keys of the rows, each as often as the table does. *)
Lemma index_insert_perm (k : string * string) (idx : list (string * string)) :
  Permutation (index_insert k idx) (k :: idx).
Proof.
  induction idx as [|k' idx IH]; simpl; [reflexivity|].
  destruct (key_leb k' k); [|reflexivity].
  rewrite IH. apply perm_swap.
Qed.

Lemma index_of_keys (t : list noun_row) : forall idx,
  fold_left (fun idx r => index_insert (noun_key r) idx) t idx =
  fold_left (fun idx k => index_insert k idx) (map noun_key t) idx.
Proof. induction t as [|r t IH]; intros idx; simpl; [reflexivity|apply IH]. Qed.

Lemma index_fold_perm (ks : list (string * string)) : forall idx,
  Permutation (fold_left (fun idx k => index_insert k idx) ks idx) (idx ++ ks).
Proof.
  induction ks as [|k ks IH]; intros idx; simpl.
  - rewrite app_nil_r. reflexivity.
  - rewrite IH, index_insert_perm. apply Permutation_middle.
Qed.

Lemma nouns_index_perm (t : list noun_row) :
  Permutation (nouns_index t) (map noun_key t).
Proof.
  unfold nouns_index. rewrite index_of_keys. apply (index_fold_perm _ []).
Qed.

Lemma in_nouns_index (k : string * string) (t : list noun_row) :
  In k (nouns_index t) <-> In k (map noun_key t).
Proof.
  split; apply Permutation_in;
    [|symmetry]; apply nouns_index_perm.
Qed.

Lemma in_find_noun (w p s : string) (db : SnuskDb) :
  In (p, s) (find_noun w db) <-> stored_noun p s db /\ (p = w \/ s = w).
Proof.
  unfold find_noun, stored_noun. rewrite filter_In, in_nouns_index. simpl.
  rewrite orb_true_iff, !String.eqb_eq. intuition congruence.
Qed.

(** The pairs [find_noun] returns depend on the keys of the noun rows only. *)
Lemma find_noun_keys (w : string) (db db' : SnuskDb) :
  map noun_key (nouns db') = map noun_key (nouns db) ->
  find_noun w db' = find_noun w db.
Proof.
  intros H. unfold find_noun, nouns_index. rewrite !index_of_keys, H.
  reflexivity.
Qed.

Lemma length_xs (n : nat) : String.length (xs n) = n.
Proof. induction n; simpl; congruence. Qed.

Lemma xs_inj (n m : nat) : xs n = xs m -> n = m.
Proof. intros H. rewrite <- (length_xs n), <- (length_xs m), H. reflexivity. Qed.

(** Inserting the nouns (a, ""), (a, x), (a, xx), ... into a fresh store. *)
Lemma nouns_after_adding_xs (n : nat) :
  nouns (run_calls (map (fun i => AddNoun "a" (xs i)) (seq 0 n)) fresh_db) =
  nouns fresh_db ++ map (fun i => Noun "a" (xs i) (Integer 0)) (seq 0 n).
Proof.
  induction n as [|n IH]; [reflexivity|].
  rewrite seq_S, !map_app. unfold run_calls in *. rewrite fold_left_app.
  cbn [map fold_left plus run_call].
  rewrite add_noun_fresh.
  - cbn [snd nouns]. rewrite IH, <- app_assoc. reflexivity.
  - unfold stored_noun. rewrite IH, map_app, in_app_iff, map_map.
    intros [[H|[]]|H]; [discriminate|].
    apply in_map_iff in H as [i [Hi Hin]]. apply in_seq in Hin.
    inversion Hi as [Hx]. apply xs_inj in Hx. lia.
Qed.

(** C9 (amended).  [find_noun w] returns exactly the stored (prefix, suffix)
    pairs whose prefix or suffix equals [w], each once when I1 holds; it has
    at most as many elements as there are stored nouns, and no fixed bound:
    for every [n] some sequence of [add_noun] calls on a fresh store makes
    it return more than [n] pairs. *)
Theorem find_noun_matches (w : string) (db : SnuskDb) :
  (forall p s,
     In (p, s) (find_noun w db) <-> stored_noun p s db /\ (p = w \/ s = w)) /\
  (unique_fragments db -> NoDup (find_noun w db)) /\
  length (find_noun w db) <= length (nouns db) /\
  (forall n, exists cs,
     n < length (find_noun "a" (run_calls cs fresh_db))).
Proof.
  split; [|split; [|split]].
  - intros p s. apply in_find_noun.
  - intros [Hn _]. unfold find_noun. apply NoDup_filter.
    apply (Permutation_NoDup (Permutation_sym (nouns_index_perm _))).
    exact Hn.
  - unfold find_noun.
    rewrite <- (length_map noun_key (nouns db)),
      <- (Permutation_length (nouns_index_perm (nouns db))).
    apply filter_length_le.
  - intros n. exists (map (fun i => AddNoun "a" (xs i)) (seq 0 (S n))).
    set (db' := run_calls _ fresh_db).
    assert (Hlen : length (map (fun i => ("a", xs i)) (seq 0 (S n))) <=
                   length (find_noun "a" db')).
    { apply NoDup_incl_length.
      - apply Finite.Injective_map_NoDup; [|apply seq_NoDup].
        intros i j E. inversion E as [Hx]. apply xs_inj. exact Hx.
      - intros k Hk. apply in_map_iff in Hk as [i [<- Hi]].
        apply in_find_noun. split; [|left; reflexivity].
        unfold stored_noun, db'. rewrite nouns_after_adding_xs, map_app.
        apply in_app_iff. right. rewrite map_map.
        apply in_map_iff. exists i. split; [reflexivity|exact Hi]. }
    rewrite length_map, length_seq in Hlen. lia.
Qed.

(** ** The properties at concrete stores *)

Lemma random_parts_skip_score_witness :
  (exists a b c d e,
     noun_drawn 0 fresh_db a /\ noun_drawn 0 fresh_db b /\
     inbetweeny_drawn 0 fresh_db c /\
     noun_drawn 0 fresh_db d /\ noun_drawn 0 fresh_db e /\
     ["frukt"; "frukten"; "i"; "frukt"; "frukten"] =
     [prefix a; suffix b; inbetweeny c; prefix d; suffix e]) /\
  _random_parts no_random db_skipped = Raise TypeError.
Proof.
  split.
  - apply (proj1 (proj2 (random_parts_skip_score no_random fresh_db))).
    reflexivity.
  - apply (proj2 (proj2 (proj2 (proj2 (proj2
             (random_parts_skip_score no_random db_skipped)))))).
    left. intros x [<-|[]]. simpl. lia.
Defined.

Lemma random_parts_one_noun_row_witness :
  (exists x c,
     In x (nouns db_two) /\ eligible_noun x = true /\
     In c (inbetweenies db_two) /\ eligible_inbetweeny c = true /\
     ["don"; "donet"; "i"; "don"; "donet"] =
       [prefix x; suffix x; inbetweeny c; prefix x; suffix x]) /\
  (exists parts, _random_parts (SqlRandom 1 0) db_two = Ok parts).
Proof.
  split.
  - apply (proj1 (random_parts_one_noun_row (SqlRandom 1 0) db_two)).
    reflexivity.
  - apply (proj1 (proj2 (random_parts_one_noun_row (SqlRandom 1 0) db_two)));
      discriminate.
Defined.

Lemma score_additivity_witness :
  score_of_noun "frukt" "frukten"
    (snd (add_noun_scores "frukt" "frukten" [5; -8; 2]%Z fresh_db)) =
  Some (Integer (0 + sum [5; -8; 2]%Z)).
Proof.
  apply (proj1 (score_additivity fresh_db [5; -8; 2]%Z)
           "frukt" "frukten" 0%Z eq_refl eq_refl).
Defined.

(** Additivity fails when a score leaves the 64-bit range: from score 0,
    the deltas 2^63 - 1 and 2 leave the double 2^63, not the sum 2^63 + 1,
    and the second call returns that double. *)
Lemma score_additivity_overflow :
  score_of_noun "frukt" "frukten" fresh_db = Some (Integer 0) /\
  fst (add_noun_scores "frukt" "frukten" [9223372036854775807; 2]%Z fresh_db) =
    [Ok (Some (Integer 9223372036854775807));
     Ok (Some (Real 9223372036854775808))] /\
  score_of_noun "frukt" "frukten"
    (snd (add_noun_scores "frukt" "frukten" [9223372036854775807; 2]%Z
            fresh_db)) = Some (Real 9223372036854775808) /\
  (0 + sum [9223372036854775807; 2]%Z = 9223372036854775809)%Z.
Proof. repeat split; vm_compute; reflexivity. Qed.

Lemma add_noun_add_inbetweeny_contract_witness :
  add_noun "don" "donet" fresh_db =
  (Ok true,
   Db (nouns fresh_db ++ [Noun "don" "donet" (Integer 0)])
      (inbetweenies fresh_db)) /\
  fst (add_noun "don" "donet" (snd (add_noun "don" "donet" fresh_db))) =
  Ok false.
Proof.
  apply (proj1 (proj1 (add_noun_add_inbetweeny_contract fresh_db)
                  "don" "donet")).
  intros [H|[]]. discriminate H.
Defined.

Lemma add_score_unknown_fragment_witness :
  add_noun_score "don" "donet" 1 (run_calls [AddInbetweeny "och"] fresh_db) =
  (Ok None, run_calls [AddInbetweeny "och"] fresh_db).
Proof.
  apply (proj1 (add_score_unknown_fragment
                  fresh_db [AddInbetweeny "och"] 1%Z) "don" "donet").
  - intros [H|[]]. discriminate H.
  - intros [H|[]]. discriminate H.
Defined.

Lemma snusk_plain_template_witness :
  snusk no_random db_don = Ok "dondonet i dondonet".
Proof.
  apply (proj2 (snusk_plain_template no_random db_don)).
  - discriminate.
  - intros x [<-|[]]. split; reflexivity.
  - discriminate.
  - intros c [<-|[]]. reflexivity.
Defined.

Lemma example_snusk_branches_witness :
  exists A B C D E coin,
    ["frukt"; "frukten"; "i"; "frukt"; "frukten"] = [A; B; C; D; E] /\
    choice 1 [false; true] = Ok coin /\
    example_snusk no_random 1 fresh_db "don" "donet" =
    Ok (if coin
        then ("don" ++ B ++ " " ++ C ++ " " ++ D ++ "donet")%string
        else (A ++ "donet" ++ " " ++ C ++ " " ++ "don" ++ E)%string).
Proof.
  apply (proj1 (example_snusk_branches no_random fresh_db "don" "donet") 1).
  reflexivity.
Defined.

Lemma directed_snusk_raek_witness :
  exists out,
    directed_snusk no_random 2 fresh_db "raek" = Ok out /\
    contains "raek" out = true.
Proof.
  destruct (proj1 (directed_snusk_raek no_random 2 fresh_db))
    as [a [b [c [d [e [i [out [_ [_ [_ [_ [_ [_ [_ [H [_ [Hc _]]]]]]]]]]]]]]]]].
  - discriminate.
  - discriminate.
  - exists out. split; assumption.
Defined.

(** The output of [directed_snusk "raek"] can contain both "raek" and
    "raekern": it does whenever slot 1 or slot 4 is overwritten. *)
Lemma directed_snusk_raek_both :
  directed_snusk no_random 1 fresh_db "raek" =
    Ok "fruktraekern i fruktfrukten" /\
  contains "raek" "fruktraekern i fruktfrukten" = true /\
  contains "raekern" "fruktraekern i fruktfrukten" = true.
Proof. repeat split; reflexivity. Qed.

Lemma find_noun_matches_witness : NoDup (find_noun "a" db_three_a).
Proof.
  apply (proj1 (proj2 (find_noun_matches "a" db_three_a))).
  apply unique_fragments_run_calls, unique_fragments_fresh_db.
Defined.

(** [find_noun] can return more than two pairs. *)
Lemma find_noun_three :
  find_noun "a" db_three_a = [("a", "x"); ("a", "y"); ("a", "z")] /\
  ~ length (find_noun "a" db_three_a) <= 2.
Proof. split; [reflexivity|]. simpl. lia. Qed.

Lemma add_duplicate_leaves_store_witness :
  snd (add_noun "frukt" "frukten" fresh_db) = fresh_db /\
  stored_noun "frukt" "frukten" fresh_db /\
  score_of_noun "frukt" "frukten" (snd (add_noun "frukt" "frukten" fresh_db)) =
  score_of_noun "frukt" "frukten" fresh_db.
Proof.
  apply (proj1 (add_duplicate_leaves_store fresh_db) "frukt" "frukten").
  reflexivity.
Defined.

(** * Further properties of the store *)

(** ** Opening a database *)

(** [_setup] never raises.  It puts the seed row into each table that is
    empty and leaves a table that has rows as it is, so both tables have a
    row afterwards, and running it again on its result changes nothing. *)
Theorem _setup_seeds_empty_tables (db : SnuskDb) :
  exists db',
    _setup db = Ok db' /\
    nouns db' = match nouns db with
                | [] => [Noun "frukt" "frukten" (Integer 0)]
                | _ :: _ => nouns db
                end /\
    inbetweenies db' = match inbetweenies db with
                       | [] => [Inbetweeny "i" (Integer 0)]
                       | _ :: _ => inbetweenies db
                       end /\
    nouns db' <> [] /\ inbetweenies db' <> [] /\
    _setup db' = Ok db'.
Proof.
  destruct db as [[|n ns] [|i ibs]]; eexists; cbn;
    repeat split; discriminate.
Qed.

Lemma NoDup_map_eq {A B : Type} (f : A -> B) (l : list A) (x y : A) :
  NoDup (map f l) -> In x l -> In y l -> f x = f y -> x = y.
Proof.
  induction l as [|z l IH]; simpl; intros Hnd Hx Hy E; [contradiction|].
  inversion Hnd as [|? ? Hz Hl]; subst.
  destruct Hx as [->|Hx], Hy as [->|Hy]; auto.
  - exfalso. apply Hz. rewrite E. apply in_map. exact Hy.
  - exfalso. apply Hz. rewrite <- E. apply in_map. exact Hx.
Qed.

Lemma unique_fragments_setup (file db : SnuskDb) :
  unique_fragments file -> _setup file = Ok db -> unique_fragments db.
Proof.
  intros [Hn Hi] H. destruct file as [[|n ns] [|i ibs]]; cbn in H;
    inversion H; subst; split; simpl in *;
    try assumption; constructor; simpl; auto; constructor.
Qed.

(** I1 is an invariant: whatever calls follow the opening of a database whose
    tables respect it, no two noun rows of the store share (prefix, suffix)
    and no two connector rows share their word. *)
Theorem unique_fragments_invariant (file db : SnuskDb) (cs : list call) :
  unique_fragments file -> _setup file = Ok db ->
  unique_fragments (run_calls cs db) /\
  (forall x y,
     In x (nouns (run_calls cs db)) -> In y (nouns (run_calls cs db)) ->
     prefix x = prefix y -> suffix x = suffix y -> x = y) /\
  (forall c d,
     In c (inbetweenies (run_calls cs db)) ->
     In d (inbetweenies (run_calls cs db)) ->
     inbetweeny c = inbetweeny d -> c = d).
Proof.
  intros Hu Hs.
  assert (H : unique_fragments (run_calls cs db)).
  { apply unique_fragments_run_calls. eapply unique_fragments_setup; eassumption. }
  split; [exact H|]. destruct H as [Hn Hi]. split.
  - intros x y Hx Hy Ep Es. apply (NoDup_map_eq noun_key _ x y Hn Hx Hy).
    unfold noun_key. congruence.
  - intros c d Hc Hd E. apply (NoDup_map_eq inbetweeny _ c d Hi Hc Hd E).
Qed.

(** ** Rows are never deleted *)

Lemma noun_keys_run_call (c : call) (db : SnuskDb) :
  exists l, map noun_key (nouns (run_call c db)) =
            map noun_key (nouns db) ++ l.
Proof.
  destruct c as [p s|w|p s d|w d]; simpl.
  - unfold add_noun, insert_into_nouns.
    destruct (existsb (noun_key_eqb p s) (nouns db)); simpl.
    + exists []. rewrite app_nil_r. reflexivity.
    + eexists. rewrite map_app. reflexivity.
  - exists []. rewrite app_nil_r. unfold add_inbetweeny.
    destruct (insert_into_inbetweenies w (inbetweenies db)) as [t|[]];
      reflexivity.
  - exists []. rewrite app_nil_r. apply add_noun_score_keys.
  - exists []. rewrite app_nil_r.
    rewrite (proj2 (add_inbetweeny_score_keys w d db)). reflexivity.
Qed.

Lemma inbetweeny_words_run_call (c : call) (db : SnuskDb) :
  exists l, map inbetweeny (inbetweenies (run_call c db)) =
            map inbetweeny (inbetweenies db) ++ l.
Proof.
  destruct c as [p s|w|p s d|w d]; simpl.
  - exists []. rewrite app_nil_r. unfold add_noun.
    destruct (insert_into_nouns p s (nouns db)) as [t|[]]; reflexivity.
  - unfold add_inbetweeny, insert_into_inbetweenies.
    destruct (existsb (inbetweeny_key_eqb w) (inbetweenies db)); simpl.
    + exists []. rewrite app_nil_r. reflexivity.
    + eexists. rewrite map_app. reflexivity.
  - exists []. rewrite app_nil_r.
    rewrite (proj2 (add_noun_score_keys p s d db)). reflexivity.
  - exists []. rewrite app_nil_r. apply add_inbetweeny_score_keys.
Qed.

Lemma noun_keys_run_calls (cs : list call) : forall db,
  exists l, map noun_key (nouns (run_calls cs db)) =
            map noun_key (nouns db) ++ l.
Proof.
  unfold run_calls. induction cs as [|c cs IH]; intros db; simpl.
  - exists []. rewrite app_nil_r. reflexivity.
  - destruct (IH (run_call c db)) as [l2 ->].
    destruct (noun_keys_run_call c db) as [l1 ->].
    exists (l1 ++ l2). rewrite app_assoc. reflexivity.
Qed.

Lemma inbetweeny_words_run_calls (cs : list call) : forall db,
  exists l, map inbetweeny (inbetweenies (run_calls cs db)) =
            map inbetweeny (inbetweenies db) ++ l.
Proof.
  unfold run_calls. induction cs as [|c cs IH]; intros db; simpl.
  - exists []. rewrite app_nil_r. reflexivity.
  - destruct (IH (run_call c db)) as [l2 ->].
    destruct (inbetweeny_words_run_call c db) as [l1 ->].
    exists (l1 ++ l2). rewrite app_assoc. reflexivity.
Qed.

Lemma row_at_map {A B : Type} (f : A -> B) (i : nat) (t : list A) :
  row_at i (map f t) = option_map f (row_at i t).
Proof. destruct i; simpl; [reflexivity|]. apply nth_error_map. Qed.

Lemma row_at_app_l {A : Type} (i : nat) (t l : list A) (x : A) :
  row_at i t = Some x -> row_at i (t ++ l) = Some x.
Proof.
  destruct i; simpl; [discriminate|]. intros H.
  rewrite nth_error_app1; [exact H|]. apply nth_error_Some. congruence.
Qed.

(** No call deletes or renames a row: a stored fragment stays stored, at the
    rowid it has, and no table ever shrinks. *)
Theorem rows_never_deleted (db : SnuskDb) (cs : list call) :
  (forall i x,
     row_at i (nouns db) = Some x ->
     exists x', row_at i (nouns (run_calls cs db)) = Some x' /\
                prefix x' = prefix x /\ suffix x' = suffix x) /\
  (forall i c,
     row_at i (inbetweenies db) = Some c ->
     exists c', row_at i (inbetweenies (run_calls cs db)) = Some c' /\
                inbetweeny c' = inbetweeny c) /\
  (forall p s, stored_noun p s db -> stored_noun p s (run_calls cs db)) /\
  (forall w, stored_inbetweeny w db -> stored_inbetweeny w (run_calls cs db)) /\
  length (nouns db) <= length (nouns (run_calls cs db)) /\
  length (inbetweenies db) <= length (inbetweenies (run_calls cs db)).
Proof.
  destruct (noun_keys_run_calls cs db) as [ln Hn].
  destruct (inbetweeny_words_run_calls cs db) as [li Hi].
  repeat split.
  - intros i x Hx.
    assert (H : row_at i (map noun_key (nouns (run_calls cs db))) =
                Some (noun_key x)).
    { rewrite Hn. apply row_at_app_l. rewrite row_at_map, Hx. reflexivity. }
    rewrite row_at_map in H.
    destruct (row_at i (nouns (run_calls cs db))) as [x'|]; [|discriminate].
    exists x'. inversion H. auto.
  - intros i c Hc.
    assert (H : row_at i (map inbetweeny (inbetweenies (run_calls cs db))) =
                Some (inbetweeny c)).
    { rewrite Hi. apply row_at_app_l. rewrite row_at_map, Hc. reflexivity. }
    rewrite row_at_map in H.
    destruct (row_at i (inbetweenies (run_calls cs db))) as [c'|];
      [|discriminate].
    exists c'. inversion H. auto.
  - intros p s H. apply stored_noun_run_calls. left. exact H.
  - intros w H. apply stored_inbetweeny_run_calls. left. exact H.
  - rewrite <- (length_map noun_key (nouns (run_calls cs db))), Hn.
    rewrite length_app, length_map. lia.
  - rewrite <- (length_map inbetweeny (inbetweenies (run_calls cs db))), Hi.
    rewrite length_app, length_map. lia.
Qed.

(** ** Which rows a draw can return *)

(** A noun row can be the outcome of a reference to [random_noun] exactly
    when it is stored with a score above [SKIP_SCORE], and likewise for the
    connector rows: every eligible row has a random outcome that selects it
    and no other row has one. *)
Theorem drawn_iff_eligible (db : SnuskDb) :
  (forall x, (exists k, noun_drawn k db x) <->
             In x (nouns db) /\
             (SKIP_SCORE < score_value (noun_score x))%Z) /\
  (forall c, (exists k, inbetweeny_drawn k db c) <->
             In c (inbetweenies db) /\
             (SKIP_SCORE < score_value (inbetweeny_score c))%Z).
Proof.
  split.
  - intros x. split.
    + intros [k H]. eapply noun_drawn_eligible. exact H.
    + intros [Hin Hlt]. apply In_row_at in Hin as [i Hi].
      destruct (drawn_row_any eligible_noun (nouns db) i x Hi) as [k [_ Hk]].
      { apply Z.ltb_lt. exact Hlt. }
      exists k. apply noun_drawn_iff. exact Hk.
  - intros c. split.
    + intros [k H]. eapply inbetweeny_drawn_eligible. exact H.
    + intros [Hin Hlt]. apply In_row_at in Hin as [i Hi].
      destruct (drawn_row_any eligible_inbetweeny (inbetweenies db) i c Hi)
        as [k [_ Hk]].
      { apply Z.ltb_lt. exact Hlt. }
      exists k. apply inbetweeny_drawn_iff. exact Hk.
Qed.

(** With a single eligible noun row and a single eligible connector row the
    random outcome does not matter: [_random_parts] always returns the tuple
    built from these two rows. *)
Theorem random_parts_single_eligible (r : sql_random) (db : SnuskDb)
    (x : noun_row) (c : inbetweeny_row) :
  eligible_nouns db = [x] -> eligible_inbetweenies db = [c] ->
  _random_parts r db = Ok [prefix x; suffix x; inbetweeny c; prefix x; suffix x].
Proof.
  intros Hn Hi.
  destruct (_random_parts_total r db)
    as [a [b [c' [d [e [Ha [Hb [Hc [Hd [He H]]]]]]]]]].
  { rewrite Hn. discriminate. }
  { rewrite Hi. discriminate. }
  rewrite Hn in Ha, Hb, Hd, He. rewrite Hi in Hc.
  destruct Ha as [<-|[]], Hb as [<-|[]], Hc as [<-|[]], Hd as [<-|[]],
    He as [<-|[]].
  exact H.
Qed.

(** ** The compositions *)

Lemma prefix_refl (t : string) : String.prefix t t = true.
Proof.
  induction t as [|c t IH]; simpl; [reflexivity|].
  destruct (ascii_dec c c); [exact IH|congruence].
Qed.

Lemma contains_refl (t : string) : contains t t = true.
Proof. apply contains_prefix, prefix_refl. Qed.

Lemma choice_directed_cases (k : nat) :
  exists i, choice k [0; 1; 3; 4] = Ok i /\ (i = 0 \/ i = 1 \/ i = 3 \/ i = 4).
Proof.
  destruct (choice_lt k [0; 1; 3; 4]) as [i [Hk Hin]]; [discriminate|].
  exists i. split; [exact Hk|]. simpl in Hin. intuition.
Qed.

Lemma choice_two_cases {A : Type} (k : nat) (x y : A) :
  choice k [x; y] = Ok x \/ choice k [x; y] = Ok y.
Proof.
  destruct (choice_lt k [x; y]) as [z [Hk Hin]]; [discriminate|].
  rewrite Hk. destruct Hin as [<-|[<-|[]]]; auto.
Qed.

(** Every composition succeeds when the store has an eligible noun and an
    eligible connector, whatever the random outcomes and the arguments, and
    raises [TypeError] (never [IndexError]) when it has no eligible noun or
    no eligible connector.  This holds also for [taste] and [nick], which use
    no connector, and for [example_snusk_with_inbetweeny], which replaces
    the drawn connector. *)
Theorem compositions_succeed_or_raise (upper : string -> string)
    (r : sql_random) (k : nat) (db : SnuskDb) (target a b w : string) :
  (eligible_nouns db <> [] -> eligible_inbetweenies db <> [] ->
   (exists out, snusk r db = Ok out) /\
   (exists out, directed_snusk r k db target = Ok out) /\
   (exists out, taste upper r db = Ok out) /\
   (exists out, nick r k db = Ok out) /\
   (exists out, example_snusk r k db a b = Ok out) /\
   (exists out, example_snusk_with_inbetweeny r db w = Ok out)) /\
  (eligible_nouns db = [] \/ eligible_inbetweenies db = [] ->
   snusk r db = Raise TypeError /\
   directed_snusk r k db target = Raise TypeError /\
   taste upper r db = Raise TypeError /\
   nick r k db = Raise TypeError /\
   example_snusk r k db a b = Raise TypeError /\
   example_snusk_with_inbetweeny r db w = Raise TypeError).
Proof.
  split.
  - intros Hn Hi.
    destruct (_random_parts_total r db Hn Hi)
      as [x1 [x2 [c [x3 [x4 [_ [_ [_ [_ [_ H]]]]]]]]]].
    unfold snusk, directed_snusk, taste, nick, example_snusk,
      example_snusk_with_inbetweeny.
    rewrite H. cbn [bind]. repeat split.
    + eexists. reflexivity.
    + destruct (choice_directed_cases k) as [i [-> [-> | [-> | [-> | ->]]]]];
        eexists; reflexivity.
    + eexists. reflexivity.
    + destruct (choice_two_cases k 0 1) as [-> | ->]; eexists; reflexivity.
    + destruct (choice_two_cases k false true) as [-> | ->];
        eexists; reflexivity.
    + eexists. reflexivity.
  - intros H. apply (_random_parts_no_eligible r) in H.
    unfold snusk, directed_snusk, taste, nick, example_snusk,
      example_snusk_with_inbetweeny.
    rewrite H. repeat split.
Qed.

(** [nick] returns one word of the draw: the prefix of the drawn noun row
    when [random.choice] picks 0, its suffix when it picks 1.  The row is
    eligible, and both picks occur. *)
Theorem nick_prefix_or_suffix (r : sql_random) (k : nat) (db : SnuskDb) :
  (eligible_nouns db <> [] -> eligible_inbetweenies db <> [] ->
   exists x i,
     noun_drawn (rnd_noun r) db x /\ In x (eligible_nouns db) /\
     choice k [0; 1] = Ok i /\
     nick r k db = Ok (if i =? 0 then prefix x else suffix x)) /\
  choice 0 [0; 1] = Ok 0 /\ choice 1 [0; 1] = Ok 1.
Proof.
  split; [|split; reflexivity].
  intros Hn Hi.
  destruct (_random_parts_total_row r db Hn Hi) as [x [c [Hx [Ix [_ [_ H]]]]]].
  exists x. unfold nick. rewrite H. cbn [bind].
  destruct (choice_two_cases k 0 1) as [Hk|Hk]; rewrite Hk.
  - exists 0. repeat split; assumption.
  - exists 1. repeat split; assumption.
Qed.

(** [example_snusk_with_inbetweeny w] puts [w] between the two fused noun
    pairs of the draw, in place of the drawn connector, so its output
    contains [w]; the connector draw must still succeed: without an eligible
    connector in the store the call raises [TypeError]. *)
Theorem example_snusk_with_inbetweeny_output (r : sql_random) (db : SnuskDb)
    (w : string) :
  (eligible_nouns db <> [] -> eligible_inbetweenies db <> [] ->
   exists a b d e out,
     In a (eligible_nouns db) /\ In b (eligible_nouns db) /\
     In d (eligible_nouns db) /\ In e (eligible_nouns db) /\
     example_snusk_with_inbetweeny r db w = Ok out /\
     out = (prefix a ++ suffix b ++ " " ++ w ++ " " ++
            prefix d ++ suffix e)%string /\
     contains w out = true) /\
  (eligible_inbetweenies db = [] ->
   example_snusk_with_inbetweeny r db w = Raise TypeError).
Proof.
  split.
  - intros Hn Hi.
    destruct (_random_parts_total r db Hn Hi)
      as [a [b [c [d [e [Ha [Hb [_ [Hd [He H]]]]]]]]]].
    exists a, b, d, e. eexists. repeat (split; [eassumption|]).
    split; [|split; [reflexivity|]].
    + unfold example_snusk_with_inbetweeny. rewrite H. reflexivity.
    + do 3 apply contains_app_l. apply contains_prefix, prefix_app_same.
  - intros H. unfold example_snusk_with_inbetweeny.
    rewrite _random_parts_no_eligible by (right; exact H). reflexivity.
Qed.

(** For every target, the output of [directed_snusk] contains the target;
    when slot 1 or slot 4 is the one overwritten it contains the target
    followed by "ern". *)
Theorem directed_snusk_contains_target (r : sql_random) (k : nat)
    (db : SnuskDb) (target : string) :
  eligible_nouns db <> [] -> eligible_inbetweenies db <> [] ->
  exists i out,
    choice k [0; 1; 3; 4] = Ok i /\
    directed_snusk r k db target = Ok out /\
    contains target out = true /\
    (i = 1 \/ i = 4 -> contains (target ++ "ern") out = true).
Proof.
  intros Hn Hi.
  destruct (_random_parts_total r db Hn Hi)
    as [a [b [c [d [e [_ [_ [_ [_ [_ H]]]]]]]]]].
  destruct (choice_directed_cases k) as [i [Hk Hcases]].
  assert (Hout : directed_snusk r k db target =
    (parts <- setitem [prefix a; suffix b; inbetweeny c; prefix d; suffix e] i
               (if existsb (Nat.eqb i) [0; 3] then target
                else (target ++ "ern")%string) ;;
     _format_parts parts)).
  { unfold directed_snusk. rewrite H. cbn [bind]. rewrite Hk. reflexivity. }
  exists i. destruct Hcases as [-> | [-> | [-> | ->]]];
    eexists; (split; [exact Hk|]); (split; [rewrite Hout; reflexivity|]);
    split.
  - apply contains_prefix, prefix_app_same.
  - intros [E|E]; discriminate.
  - apply contains_app_l, contains_app_r, contains_prefix, prefix_app_same.
  - intros _. apply contains_app_l, contains_prefix, prefix_app_same.
  - do 5 apply contains_app_l. apply contains_prefix, prefix_app_same.
  - intros [E|E]; discriminate.
  - do 6 apply contains_app_l. apply contains_prefix, prefix_app_same.
  - intros _. do 6 apply contains_app_l. apply contains_refl.
Qed.

(** Whatever the coin shows, the output of [example_snusk a b] contains both
    [a] and [b]. *)
Theorem example_snusk_contains_arguments (r : sql_random) (k : nat)
    (db : SnuskDb) (a b : string) :
  eligible_nouns db <> [] -> eligible_inbetweenies db <> [] ->
  exists out,
    example_snusk r k db a b = Ok out /\
    contains a out = true /\ contains b out = true.
Proof.
  intros Hn Hi.
  destruct (_random_parts_total r db Hn Hi)
    as [x1 [x2 [c [x3 [x4 [_ [_ [_ [_ [_ H]]]]]]]]]].
  unfold example_snusk. rewrite H. cbn [bind].
  destruct (choice_two_cases k false true) as [-> | ->];
    eexists; (split; [reflexivity|]); split.
  - do 5 apply contains_app_l. apply contains_prefix, prefix_app_same.
  - apply contains_app_l, contains_prefix, prefix_app_same.
  - apply contains_prefix, prefix_app_same.
  - do 6 apply contains_app_l. apply contains_refl.
Qed.

(** [taste] upper-cases the prefix of the one drawn noun row and returns it
    twice, joined by a slash: both halves of its result are the same word.
    The outcome of the connector draw does not change what it returns. *)
Theorem taste_same_prefix_twice (upper : string -> string) (r : sql_random)
    (db : SnuskDb) :
  (eligible_nouns db <> [] -> eligible_inbetweenies db <> [] ->
   exists x,
     noun_drawn (rnd_noun r) db x /\ In x (eligible_nouns db) /\
     taste upper r db =
     Ok (upper (prefix x) ++ "/" ++ upper (prefix x))%string) /\
  (forall kc, taste upper (SqlRandom (rnd_noun r) kc) db = taste upper r db).
Proof.
  split.
  - intros Hn Hi.
    destruct (_random_parts_total_row r db Hn Hi)
      as [x [c [Hx [Ix [_ [_ H]]]]]].
    exists x. repeat split; try assumption.
    unfold taste. rewrite H. reflexivity.
  - intros kc. unfold taste. rewrite !_random_parts_drawn. simpl.
    destruct (drawn_row eligible_noun (rnd_noun r) (nouns db)) as [x|];
      [|reflexivity].
    destruct (drawn_row eligible_inbetweeny kc (inbetweenies db))
      as [c1|] eqn:E1;
      destruct (drawn_row eligible_inbetweeny (rnd_inbetweeny r)
                  (inbetweenies db)) as [c2|] eqn:E2; try reflexivity.
    + apply drawn_row_None in E2.
      apply (drawn_row_None eligible_inbetweeny kc) in E2. congruence.
    + apply drawn_row_None in E1.
      apply (drawn_row_None eligible_inbetweeny (rnd_inbetweeny r)) in E1.
      congruence.
Qed.

(** ** Inserting, looking up and scoring *)

(** The order of the index is a total preorder that tells keys apart. *)
Lemma string_compare_refl (a : string) : String.compare a a = Eq.
Proof. apply OrderedTypeEx.String_as_OT.cmp_eq. reflexivity. Qed.

Lemma string_compare_lt_trans (a b c : string) :
  String.compare a b = Lt -> String.compare b c = Lt -> String.compare a c = Lt.
Proof.
  intros H1 H2. apply OrderedTypeEx.String_as_OT.cmp_lt.
  apply OrderedTypeEx.String_as_OT.cmp_lt in H1, H2.
  eapply OrderedTypeEx.String_as_OT.lt_trans; eassumption.
Qed.

Lemma key_compare_refl (a : string * string) : key_compare a a = Eq.
Proof. unfold key_compare. rewrite !string_compare_refl. reflexivity. Qed.

Lemma key_compare_eq (a b : string * string) : key_compare a b = Eq -> a = b.
Proof.
  unfold key_compare. destruct a as [a1 a2], b as [b1 b2]. simpl.
  destruct (String.compare a1 b1) eqn:E; try discriminate.
  intros E2. apply String.compare_eq_iff in E, E2. congruence.
Qed.

Lemma key_compare_antisym (a b : string * string) :
  key_compare a b = CompOpp (key_compare b a).
Proof.
  unfold key_compare.
  rewrite (String.compare_antisym (fst a) (fst b)).
  destruct (String.compare (fst b) (fst a)); simpl; try reflexivity.
  apply String.compare_antisym.
Qed.

Lemma key_compare_lt_trans (a b c : string * string) :
  key_compare a b = Lt -> key_compare b c = Lt -> key_compare a c = Lt.
Proof.
  unfold key_compare. destruct a as [a1 a2], b as [b1 b2], c as [c1 c2]. simpl.
  destruct (String.compare a1 b1) eqn:E1; try discriminate;
    destruct (String.compare b1 c1) eqn:E2; try discriminate; intros H1 H2.
  - apply String.compare_eq_iff in E1, E2. subst.
    rewrite string_compare_refl. eapply string_compare_lt_trans; eassumption.
  - apply String.compare_eq_iff in E1. subst. rewrite E2. reflexivity.
  - apply String.compare_eq_iff in E2. subst. rewrite E1. reflexivity.
  - rewrite (string_compare_lt_trans _ _ _ E1 E2). reflexivity.
Qed.

Lemma key_leb_total (a b : string * string) :
  key_leb a b = false -> key_leb b a = true.
Proof.
  unfold key_leb. rewrite (key_compare_antisym b a).
  destruct (key_compare a b); simpl; congruence.
Qed.

Lemma key_leb_trans (a b c : string * string) :
  key_leb a b = true -> key_leb b c = true -> key_leb a c = true.
Proof.
  unfold key_leb.
  destruct (key_compare a b) eqn:E1; try discriminate;
    destruct (key_compare b c) eqn:E2; try discriminate; intros _ _.
  - apply key_compare_eq in E1, E2. subst. rewrite key_compare_refl.
    reflexivity.
  - apply key_compare_eq in E1. subst. rewrite E2. reflexivity.
  - apply key_compare_eq in E2. subst. rewrite E1. reflexivity.
  - rewrite (key_compare_lt_trans _ _ _ E1 E2). reflexivity.
Qed.

(** The index is kept in key order. *)
Lemma index_insert_sorted (k : string * string) (idx : list (string * string)) :
  StronglySorted (fun a b => key_leb a b = true) idx ->
  StronglySorted (fun a b => key_leb a b = true) (index_insert k idx).
Proof.
  induction idx as [|k' idx IH]; intros H; simpl.
  - constructor; constructor.
  - apply StronglySorted_inv in H as [Hs Hf].
    destruct (key_leb k' k) eqn:E.
    + constructor; [apply IH; exact Hs|].
      apply (Permutation_Forall (Permutation_sym (index_insert_perm k idx))).
      constructor; assumption.
    + apply key_leb_total in E. constructor.
      * constructor; assumption.
      * constructor; [exact E|].
        apply Forall_forall. intros x Hx.
        rewrite Forall_forall in Hf.
        eapply key_leb_trans; [exact E|apply Hf; exact Hx].
Qed.

Lemma nouns_index_sorted (t : list noun_row) :
  StronglySorted (fun a b => key_leb a b = true) (nouns_index t).
Proof.
  unfold nouns_index.
  assert (H : forall idx,
    StronglySorted (fun a b => key_leb a b = true) idx ->
    StronglySorted (fun a b => key_leb a b = true)
      (fold_left (fun idx r => index_insert (noun_key r) idx) t idx)).
  { induction t as [|r t IH]; intros idx Hs; simpl; [exact Hs|].
    apply IH, index_insert_sorted, Hs. }
  apply H. constructor.
Qed.

Lemma StronglySorted_filter {A : Type} (R : A -> A -> Prop) (f : A -> bool)
    (l : list A) :
  StronglySorted R l -> StronglySorted R (filter f l).
Proof.
  induction l as [|x l IH]; intros H; simpl; [constructor|].
  apply StronglySorted_inv in H as [Hs Hf].
  destruct (f x); [|apply IH; exact Hs].
  constructor; [apply IH; exact Hs|].
  apply Forall_forall. intros y Hy. apply filter_In in Hy as [Hy _].
  rewrite Forall_forall in Hf. apply Hf. exact Hy.
Qed.

Lemma Permutation_filter {A : Type} (f : A -> bool) (l l' : list A) :
  Permutation l l' -> Permutation (filter f l) (filter f l').
Proof.
  induction 1 as [|x l l' _ IH|x y l|l l' l'' _ IH1 _ IH2]; simpl.
  - constructor.
  - destruct (f x); [constructor|]; exact IH.
  - destruct (f x), (f y); try reflexivity. apply perm_swap.
  - etransitivity; eassumption.
Qed.

Lemma nouns_index_snoc (t : list noun_row) (r : noun_row) :
  nouns_index (t ++ [r]) = index_insert (noun_key r) (nouns_index t).
Proof. unfold nouns_index. rewrite fold_left_app. reflexivity. Qed.

(** After [add_noun p s], whatever it returned, [find_noun] finds the pair
    under its prefix and under its suffix.  The call adds no other pair to
    any lookup and removes none: a lookup returns the pairs it returned
    before and, when it matches, the new one, in ascending key order (by
    prefix, then by suffix), wherever the new pair falls in that order. *)
Theorem add_noun_then_find_noun (p s : string) (db : SnuskDb) :
  In (p, s) (find_noun p (snd (add_noun p s db))) /\
  In (p, s) (find_noun s (snd (add_noun p s db))) /\
  (forall w p' s',
     In (p', s') (find_noun w (snd (add_noun p s db))) <->
     In (p', s') (find_noun w db) \/ ((p', s') = (p, s) /\ (p = w \/ s = w))) /\
  (forall w,
     StronglySorted (fun a b => key_leb a b = true)
       (find_noun w (snd (add_noun p s db)))) /\
  (~ stored_noun p s db ->
   forall w,
     Permutation
       (find_noun w (snd (add_noun p s db)))
       (find_noun w db ++
        (if (w =? p)%string || (w =? s)%string then [(p, s)] else []))).
Proof.
  assert (Hst : forall p' s',
    stored_noun p' s' (snd (add_noun p s db)) <->
    stored_noun p' s' db \/ (p', s') = (p, s)).
  { intros p' s'.
    rewrite (stored_noun_run_call (AddNoun p s) db p' s'). split.
    - intros [H|H]; [auto|]. inversion H. auto.
    - intros [H|H]; [auto|]. inversion H. auto. }
  split; [|split; [|split; [|split]]].
  - apply in_find_noun. split; [apply stored_noun_after_add|auto].
  - apply in_find_noun. split; [apply stored_noun_after_add|auto].
  - intros w p' s'. rewrite !in_find_noun, Hst. split.
    + intros [[H|H] Hw]; [auto|]. right. inversion H; subst. auto.
    + intros [[H Hw]|[H Hw]]; [auto|]. inversion H; subst. auto.
  - intros w. unfold find_noun. apply StronglySorted_filter, nouns_index_sorted.
  - intros H w. rewrite add_noun_fresh by exact H. unfold find_noun.
    cbn [snd nouns]. rewrite nouns_index_snoc.
    rewrite (Permutation_filter _ _ _ (index_insert_perm _ _)).
    cbn [filter noun_key prefix suffix fst snd].
    destruct ((w =? p)%string || (w =? s)%string).
    + exact (Permutation_cons_append _ (p, s)).
    + rewrite app_nil_r. reflexivity.
Qed.

Lemma select_noun_score_absent (p s : string) (t : list noun_row) :
  ~ In (p, s) (map noun_key t) -> select_noun_score p s t = [].
Proof.
  intros H. unfold select_noun_score.
  rewrite (proj2 (filter_nil_forall (noun_key_eqb p s) t)); [reflexivity|].
  intros r Hr. destruct (noun_key_eqb p s r) eqn:E; [|reflexivity].
  exfalso. apply H. apply existsb_noun_key, existsb_exists. eauto.
Qed.

Lemma select_inbetweeny_score_absent (w : string) (t : list inbetweeny_row) :
  ~ In w (map inbetweeny t) -> select_inbetweeny_score w t = [].
Proof.
  intros H. unfold select_inbetweeny_score.
  rewrite (proj2 (filter_nil_forall (inbetweeny_key_eqb w) t)); [reflexivity|].
  intros r Hr. destruct (inbetweeny_key_eqb w r) eqn:E; [|reflexivity].
  exfalso. apply H. apply existsb_inbetweeny_key, existsb_exists. eauto.
Qed.

Lemma noun_key_eqb_refl (p s : string) (z : sql_number) :
  noun_key_eqb p s (Noun p s z) = true.
Proof. unfold noun_key_eqb. simpl. rewrite !String.eqb_refl. reflexivity. Qed.

Lemma is_int64_0_add (delta : Z) : is_int64 (0 + delta) = is_int64 delta.
Proof. reflexivity. Qed.

(** A fragment that [add_noun] or [add_inbetweeny] has just inserted has
    score 0: the first adjustment by [delta] returns [delta] (a [delta] that
    does not fit 64 bits is refused).  Its score is above [SKIP_SCORE], so
    some random outcome draws it at once. *)
Theorem new_fragment_scores_zero (db : SnuskDb) (delta : Z) :
  (forall p s,
     ~ stored_noun p s db ->
     score_of_noun p s (snd (add_noun p s db)) = Some (Integer 0) /\
     fst (add_noun_score p s delta (snd (add_noun p s db))) =
       (if is_int64 delta then Ok (Some (Integer delta))
        else Raise OverflowError) /\
     exists k, noun_drawn k (snd (add_noun p s db)) (Noun p s (Integer 0))) /\
  (forall w,
     ~ stored_inbetweeny w db ->
     score_of_inbetweeny w (snd (add_inbetweeny w db)) = Some (Integer 0) /\
     fst (add_inbetweeny_score w delta (snd (add_inbetweeny w db))) =
       (if is_int64 delta then Ok (Some (Integer delta))
        else Raise OverflowError) /\
     exists k, inbetweeny_drawn k (snd (add_inbetweeny w db))
                                (Inbetweeny w (Integer 0))).
Proof.
  split.
  - intros p s H. rewrite add_noun_fresh by exact H. cbn [snd].
    assert (Hz : score_of_noun p s
                   (Db (nouns db ++ [Noun p s (Integer 0)]) (inbetweenies db)) =
                 Some (Integer 0)).
    { unfold score_of_noun, select_noun_score. cbn [nouns].
      rewrite filter_app, map_app.
      fold (select_noun_score p s (nouns db)).
      rewrite select_noun_score_absent by exact H.
      simpl. rewrite noun_key_eqb_refl. reflexivity. }
    split; [exact Hz|]. split.
    + destruct (is_int64 delta) eqn:Hd.
      * destruct (add_noun_score_spec p s delta
                    (Db (nouns db ++ [Noun p s (Integer 0)]) (inbetweenies db))
                    Hd) as [-> _].
        rewrite Hz. cbn [fst option_map].
        rewrite sql_add_int64 by (rewrite is_int64_0_add; exact Hd).
        reflexivity.
      * rewrite add_noun_score_overflow by exact Hd. reflexivity.
    + assert (Hin : In (Noun p s (Integer 0))
                       (nouns db ++ [Noun p s (Integer 0)])).
      { apply in_app_iff. right. left. reflexivity. }
      apply In_row_at in Hin as [i Hi].
      destruct (drawn_row_any eligible_noun _ i _ Hi eq_refl) as [k [_ Hk]].
      exists k. apply noun_drawn_iff. exact Hk.
  - intros w H. rewrite add_inbetweeny_fresh by exact H. cbn [snd].
    assert (Hz : score_of_inbetweeny w
                   (Db (nouns db) (inbetweenies db ++ [Inbetweeny w (Integer 0)])) =
                 Some (Integer 0)).
    { unfold score_of_inbetweeny, select_inbetweeny_score. cbn [inbetweenies].
      rewrite filter_app, map_app.
      fold (select_inbetweeny_score w (inbetweenies db)).
      rewrite select_inbetweeny_score_absent by exact H.
      simpl. unfold inbetweeny_key_eqb. simpl. rewrite String.eqb_refl.
      reflexivity. }
    split; [exact Hz|]. split.
    + destruct (is_int64 delta) eqn:Hd.
      * destruct (add_inbetweeny_score_spec w delta
                    (Db (nouns db) (inbetweenies db ++ [Inbetweeny w (Integer 0)]))
                    Hd) as [-> _].
        rewrite Hz. cbn [fst option_map].
        rewrite sql_add_int64 by (rewrite is_int64_0_add; exact Hd).
        reflexivity.
      * rewrite add_inbetweeny_score_overflow by exact Hd. reflexivity.
    + assert (Hin : In (Inbetweeny w (Integer 0))
                       (inbetweenies db ++ [Inbetweeny w (Integer 0)])).
      { apply in_app_iff. right. left. reflexivity. }
      apply In_row_at in Hin as [i Hi].
      destruct (drawn_row_any eligible_inbetweeny _ i _ Hi eq_refl)
        as [k [_ Hk]].
      exists k. apply inbetweeny_drawn_iff. exact Hk.
Qed.

Lemma select_noun_score_update_other (delta : Z) (p s p' s' : string)
    (t : list noun_row) :
  (p', s') <> (p, s) ->
  select_noun_score p' s' (update_noun_score delta p s t) =
  select_noun_score p' s' t.
Proof.
  intros Hne. unfold select_noun_score, update_noun_score.
  induction t as [|r t IH]; simpl; [reflexivity|].
  destruct (noun_key_eqb p s r) eqn:E.
  - apply noun_key_eqb_true in E.
    assert (E1 : noun_key_eqb p' s' r = false).
    { destruct (noun_key_eqb p' s' r) eqn:E'; [|reflexivity].
      apply noun_key_eqb_true in E'. congruence. }
    assert (E2 : noun_key_eqb p' s'
                   (Noun (prefix r) (suffix r)
                         (sql_add (noun_score r) delta)) = false).
    { exact E1. }
    rewrite E1, E2. exact IH.
  - destruct (noun_key_eqb p' s' r); simpl; rewrite IH; reflexivity.
Qed.

Lemma select_inbetweeny_score_update_other (delta : Z) (w w' : string)
    (t : list inbetweeny_row) :
  w' <> w ->
  select_inbetweeny_score w' (update_inbetweeny_score delta w t) =
  select_inbetweeny_score w' t.
Proof.
  intros Hne. unfold select_inbetweeny_score, update_inbetweeny_score.
  induction t as [|r t IH]; simpl; [reflexivity|].
  destruct (inbetweeny_key_eqb w r) eqn:E.
  - apply String.eqb_eq in E.
    assert (E1 : inbetweeny_key_eqb w' r = false).
    { apply String.eqb_neq. congruence. }
    assert (E2 : inbetweeny_key_eqb w'
                   (Inbetweeny (inbetweeny r)
                               (sql_add (inbetweeny_score r) delta)) = false).
    { exact E1. }
    rewrite E1, E2. exact IH.
  - destruct (inbetweeny_key_eqb w' r); simpl; rewrite IH; reflexivity.
Qed.

(** A score adjustment touches the score of its own fragment only: the
    other table, the (prefix, suffix) pairs and their order, every lookup by
    [find_noun] and the score of every other fragment are as before. *)
Theorem add_score_changes_one_score (delta : Z) (db : SnuskDb) :
  (forall p s,
     inbetweenies (snd (add_noun_score p s delta db)) = inbetweenies db /\
     map noun_key (nouns (snd (add_noun_score p s delta db))) =
       map noun_key (nouns db) /\
     (forall w, find_noun w (snd (add_noun_score p s delta db)) =
                find_noun w db) /\
     (forall p' s', (p', s') <> (p, s) ->
        score_of_noun p' s' (snd (add_noun_score p s delta db)) =
        score_of_noun p' s' db)) /\
  (forall w,
     nouns (snd (add_inbetweeny_score w delta db)) = nouns db /\
     map inbetweeny (inbetweenies (snd (add_inbetweeny_score w delta db))) =
       map inbetweeny (inbetweenies db) /\
     (forall w', w' <> w ->
        score_of_inbetweeny w' (snd (add_inbetweeny_score w delta db)) =
        score_of_inbetweeny w' db)).
Proof.
  split.
  - intros p s. destruct (add_noun_score_keys p s delta db) as [E1 E2].
    split; [exact E2|]. split; [exact E1|]. split.
    + intros w. apply find_noun_keys. exact E1.
    + intros p' s' Hne. rewrite add_noun_score_store.
      destruct (is_int64 delta); [|reflexivity].
      unfold score_of_noun. cbn [nouns].
      rewrite select_noun_score_update_other by exact Hne. reflexivity.
  - intros w. destruct (add_inbetweeny_score_keys w delta db) as [E1 E2].
    split; [exact E2|]. split; [exact E1|].
    intros w' Hne. rewrite add_inbetweeny_score_store.
    destruct (is_int64 delta); [|reflexivity].
    unfold score_of_inbetweeny. cbn [inbetweenies].
    rewrite select_inbetweeny_score_update_other by exact Hne. reflexivity.
Qed.

Lemma score_of_noun_In (db : SnuskDb) (x : noun_row) :
  NoDup (map noun_key (nouns db)) -> In x (nouns db) ->
  score_of_noun (prefix x) (suffix x) db = Some (noun_score x).
Proof.
  unfold score_of_noun, select_noun_score.
  induction (nouns db) as [|r t IH]; simpl; intros Hnd Hin; [contradiction|].
  inversion Hnd as [|? ? Hr Ht]; subst.
  destruct Hin as [->|Hin].
  - unfold noun_key_eqb. rewrite !String.eqb_refl. reflexivity.
  - destruct (noun_key_eqb (prefix x) (suffix x) r) eqn:E.
    + exfalso. apply Hr. apply noun_key_eqb_true in E. rewrite E.
      apply (in_map noun_key) in Hin. exact Hin.
    + apply IH; assumption.
Qed.

Lemma score_of_noun_Some_In (p s : string) (z : sql_number) (db : SnuskDb) :
  score_of_noun p s db = Some z -> In (Noun p s z) (nouns db).
Proof.
  unfold score_of_noun, select_noun_score.
  induction (nouns db) as [|r t IH]; simpl; [discriminate|].
  destruct (noun_key_eqb p s r) eqn:E; simpl.
  - intros H. inversion H. left. apply noun_key_eqb_true in E.
    destruct r. unfold noun_key in E. simpl in *. congruence.
  - intros H. right. apply IH. exact H.
Qed.

Lemma score_of_inbetweeny_In (db : SnuskDb) (c : inbetweeny_row) :
  NoDup (map inbetweeny (inbetweenies db)) -> In c (inbetweenies db) ->
  score_of_inbetweeny (inbetweeny c) db = Some (inbetweeny_score c).
Proof.
  unfold score_of_inbetweeny, select_inbetweeny_score.
  induction (inbetweenies db) as [|r t IH]; simpl; intros Hnd Hin;
    [contradiction|].
  inversion Hnd as [|? ? Hr Ht]; subst.
  destruct Hin as [->|Hin].
  - unfold inbetweeny_key_eqb. rewrite String.eqb_refl. reflexivity.
  - destruct (inbetweeny_key_eqb (inbetweeny c) r) eqn:E.
    + exfalso. apply Hr. apply String.eqb_eq in E. rewrite E.
      apply (in_map inbetweeny) in Hin. exact Hin.
    + apply IH; assumption.
Qed.

(** Two updates commute when no row is selected by both, or when the sums
    at the selected rows stay 64-bit integers. *)
Lemma update_noun_score_comm (d1 d2 : Z) (p1 s1 p2 s2 : string)
    (t : list noun_row) :
  (forall r, In r t -> noun_key r = (p1, s1) -> noun_key r = (p2, s2) ->
     sql_add (sql_add (noun_score r) d1) d2 =
     sql_add (sql_add (noun_score r) d2) d1) ->
  update_noun_score d2 p2 s2 (update_noun_score d1 p1 s1 t) =
  update_noun_score d1 p1 s1 (update_noun_score d2 p2 s2 t).
Proof.
  intros H. unfold update_noun_score. rewrite !map_map. apply map_ext_in.
  intros r Hr.
  destruct (noun_key_eqb p1 s1 r) eqn:E1; destruct (noun_key_eqb p2 s2 r) eqn:E2;
    unfold noun_key_eqb in *; simpl; rewrite ?E1, ?E2; simpl;
    try reflexivity.
  f_equal. apply H; [exact Hr| |];
    apply noun_key_eqb_true; assumption.
Qed.

Lemma update_inbetweeny_score_comm (d1 d2 : Z) (w1 w2 : string)
    (t : list inbetweeny_row) :
  (forall r, In r t -> inbetweeny r = w1 -> inbetweeny r = w2 ->
     sql_add (sql_add (inbetweeny_score r) d1) d2 =
     sql_add (sql_add (inbetweeny_score r) d2) d1) ->
  update_inbetweeny_score d2 w2 (update_inbetweeny_score d1 w1 t) =
  update_inbetweeny_score d1 w1 (update_inbetweeny_score d2 w2 t).
Proof.
  intros H. unfold update_inbetweeny_score. rewrite !map_map.
  apply map_ext_in. intros r Hr.
  destruct (inbetweeny_key_eqb w1 r) eqn:E1;
    destruct (inbetweeny_key_eqb w2 r) eqn:E2;
    unfold inbetweeny_key_eqb in *; simpl; rewrite ?E1, ?E2; simpl;
    try reflexivity.
  f_equal. apply H; [exact Hr| |]; apply String.eqb_eq; assumption.
Qed.

Lemma snd_add_noun_score_comm (p1 s1 p2 s2 : string) (d1 d2 : Z)
    (db : SnuskDb) :
  (forall r, In r (nouns db) ->
     noun_key r = (p1, s1) -> noun_key r = (p2, s2) ->
     sql_add (sql_add (noun_score r) d1) d2 =
     sql_add (sql_add (noun_score r) d2) d1) ->
  snd (add_noun_score p2 s2 d2 (snd (add_noun_score p1 s1 d1 db))) =
  snd (add_noun_score p1 s1 d1 (snd (add_noun_score p2 s2 d2 db))).
Proof.
  intros H. rewrite !add_noun_score_store.
  destruct (is_int64 d1), (is_int64 d2); cbn [nouns inbetweenies];
    try reflexivity.
  rewrite update_noun_score_comm by exact H. reflexivity.
Qed.

Lemma snd_add_inbetweeny_score_comm (w1 w2 : string) (d1 d2 : Z)
    (db : SnuskDb) :
  (forall r, In r (inbetweenies db) ->
     inbetweeny r = w1 -> inbetweeny r = w2 ->
     sql_add (sql_add (inbetweeny_score r) d1) d2 =
     sql_add (sql_add (inbetweeny_score r) d2) d1) ->
  snd (add_inbetweeny_score w2 d2 (snd (add_inbetweeny_score w1 d1 db))) =
  snd (add_inbetweeny_score w1 d1 (snd (add_inbetweeny_score w2 d2 db))).
Proof.
  intros H. rewrite !add_inbetweeny_score_store.
  destruct (is_int64 d1), (is_int64 d2); cbn [nouns inbetweenies];
    try reflexivity.
  rewrite update_inbetweeny_score_comm by exact H. reflexivity.
Qed.

Lemma sql_add_twice (z d1 d2 : Z) :
  is_int64 (z + d1) = true -> is_int64 (z + d1 + d2) = true ->
  sql_add (sql_add (Integer z) d1) d2 = Integer (z + d1 + d2).
Proof.
  intros H1 H2. rewrite sql_add_int64 by exact H1.
  rewrite sql_add_int64 by exact H2. reflexivity.
Qed.

(** Votes within the 64-bit range cancel and commute.  In a store that
    respects I1, adjusting an integer score [z] by [delta] and then by
    [- delta] gives back the store as it was when [z + delta] fits 64 bits,
    and two adjustments of one fragment leave the same store in either
    order when the scores on both ways fit.  Adjustments of different
    fragments always commute.  Outside the range the order matters: from
    score 1, adding 2^63 - 1 and then -1 leaves the double 2^63, the other
    order the integer 2^63 - 1. *)
Theorem add_score_cancels_and_commutes (db : SnuskDb) :
  (forall p s z delta,
     unique_fragments db -> score_of_noun p s db = Some (Integer z) ->
     is_int64 z = true -> is_int64 delta = true ->
     is_int64 (- delta) = true -> is_int64 (z + delta) = true ->
     snd (add_noun_score p s (- delta) (snd (add_noun_score p s delta db))) =
     db) /\
  (forall p s z d1 d2,
     unique_fragments db -> score_of_noun p s db = Some (Integer z) ->
     is_int64 (z + d1) = true -> is_int64 (z + d2) = true ->
     is_int64 (z + d1 + d2) = true ->
     snd (add_noun_score p s d2 (snd (add_noun_score p s d1 db))) =
     snd (add_noun_score p s d1 (snd (add_noun_score p s d2 db)))) /\
  (forall p1 s1 d1 p2 s2 d2,
     (p1, s1) <> (p2, s2) ->
     snd (add_noun_score p2 s2 d2 (snd (add_noun_score p1 s1 d1 db))) =
     snd (add_noun_score p1 s1 d1 (snd (add_noun_score p2 s2 d2 db)))) /\
  (forall w1 d1 w2 d2,
     w1 <> w2 ->
     snd (add_inbetweeny_score w2 d2 (snd (add_inbetweeny_score w1 d1 db))) =
     snd (add_inbetweeny_score w1 d1 (snd (add_inbetweeny_score w2 d2 db)))) /\
  (forall p s d1 w d2,
     snd (add_inbetweeny_score w d2 (snd (add_noun_score p s d1 db))) =
     snd (add_noun_score p s d1 (snd (add_inbetweeny_score w d2 db)))) /\
  (let db1 := Db [Noun "frukt" "frukten" (Integer 1)] [] in
   nouns (snd (add_noun_score "frukt" "frukten" (-1)
                 (snd (add_noun_score "frukt" "frukten" 9223372036854775807
                         db1)))) =
     [Noun "frukt" "frukten" (Real 9223372036854775808)] /\
   nouns (snd (add_noun_score "frukt" "frukten" 9223372036854775807
                 (snd (add_noun_score "frukt" "frukten" (-1) db1)))) =
     [Noun "frukt" "frukten" (Integer 9223372036854775807)]).
Proof.
  split; [|split; [|split; [|split; [|split]]]].
  - intros p s z delta [Hu _] Hz Hz0 Hd Hd' Hzd.
    rewrite !add_noun_score_store, Hd, Hd'. cbn [nouns inbetweenies].
    replace (update_noun_score (- delta) p s
               (update_noun_score delta p s (nouns db))) with (nouns db);
      [destruct db; reflexivity|].
    unfold update_noun_score. rewrite map_map.
    rewrite <- (map_id (nouns db)) at 1. apply map_ext_in. intros r Hr.
    destruct (noun_key_eqb p s r) eqn:E;
      unfold noun_key_eqb in *; cbn [prefix suffix noun_score]; rewrite E;
      [|reflexivity].
    fold (noun_key_eqb p s r) in E. apply noun_key_eqb_true in E.
    pose proof (score_of_noun_In db r Hu Hr) as Hs.
    unfold noun_key in E. inversion E; subst p s. rewrite Hz in Hs.
    injection Hs as Hs'. rewrite <- Hs'.
    rewrite sql_add_twice;
      [|exact Hzd|replace (z + delta + - delta)%Z with z by lia; exact Hz0].
    replace (z + delta + - delta)%Z with z by lia.
    destruct r. simpl in *. congruence.
  - intros p s z d1 d2 [Hu _] Hz H1 H2 H12.
    apply snd_add_noun_score_comm. intros r Hr E _.
    pose proof (score_of_noun_In db r Hu Hr) as Hs.
    unfold noun_key in E. inversion E; subst p s. rewrite Hz in Hs.
    injection Hs as Hs'. rewrite <- Hs'.
    rewrite !sql_add_twice; try assumption.
    + f_equal. lia.
    + replace (z + d2 + d1)%Z with (z + d1 + d2)%Z by lia. exact H12.
  - intros p1 s1 d1 p2 s2 d2 Hne.
    apply snd_add_noun_score_comm. intros r _ E1 E2. congruence.
  - intros w1 d1 w2 d2 Hne.
    apply snd_add_inbetweeny_score_comm. intros r _ E1 E2. congruence.
  - intros p s d1 w d2.
    rewrite !add_noun_score_store, !add_inbetweeny_score_store.
    destruct (is_int64 d1), (is_int64 d2); reflexivity.
  - split; vm_compute; reflexivity.
Qed.

(** [add_noun] and [add_inbetweeny] leave every row that is already stored as
    it is, at its rowid and with its score, and do not touch the other
    table; so a draw that could succeed before the call can still succeed. *)
Theorem add_keeps_existing_rows (db : SnuskDb) :
  (forall p s,
     inbetweenies (snd (add_noun p s db)) = inbetweenies db /\
     (forall i x, row_at i (nouns db) = Some x ->
                  row_at i (nouns (snd (add_noun p s db))) = Some x) /\
     (forall p' s', (p', s') <> (p, s) ->
        score_of_noun p' s' (snd (add_noun p s db)) = score_of_noun p' s' db) /\
     (eligible_nouns db <> [] -> eligible_nouns (snd (add_noun p s db)) <> [])) /\
  (forall w,
     nouns (snd (add_inbetweeny w db)) = nouns db /\
     (forall i c, row_at i (inbetweenies db) = Some c ->
                  row_at i (inbetweenies (snd (add_inbetweeny w db))) = Some c) /\
     (forall w', w' <> w ->
        score_of_inbetweeny w' (snd (add_inbetweeny w db)) =
        score_of_inbetweeny w' db) /\
     (eligible_inbetweenies db <> [] ->
      eligible_inbetweenies (snd (add_inbetweeny w db)) <> [])).
Proof.
  split.
  - intros p s. destruct (stored_noun_dec p s db) as [H|H].
    + rewrite add_noun_duplicate by exact H. cbn [snd]. auto.
    + rewrite add_noun_fresh by exact H. cbn [snd nouns inbetweenies].
      split; [reflexivity|]. split; [|split].
      * intros i x Hx. apply row_at_app_l. exact Hx.
      * intros p' s' Hne. unfold score_of_noun, select_noun_score.
        cbn [nouns]. rewrite filter_app, map_app. simpl.
        destruct (noun_key_eqb p' s' (Noun p s (Integer 0))) eqn:E.
        { apply noun_key_eqb_true in E. unfold noun_key in E. simpl in E.
          congruence. }
        rewrite app_nil_r. reflexivity.
      * unfold eligible_nouns. cbn [nouns]. rewrite filter_app.
        intros Hn E. apply app_eq_nil in E as [E _]. contradiction.
  - intros w. destruct (stored_inbetweeny_dec w db) as [H|H].
    + rewrite add_inbetweeny_duplicate by exact H. cbn [snd]. auto.
    + rewrite add_inbetweeny_fresh by exact H. cbn [snd nouns inbetweenies].
      split; [reflexivity|]. split; [|split].
      * intros i x Hx. apply row_at_app_l. exact Hx.
      * intros w' Hne. unfold score_of_inbetweeny, select_inbetweeny_score.
        cbn [inbetweenies]. rewrite filter_app, map_app. simpl.
        destruct (inbetweeny_key_eqb w' (Inbetweeny w (Integer 0))) eqn:E.
        { apply String.eqb_eq in E. simpl in E. congruence. }
        rewrite app_nil_r. reflexivity.
      * unfold eligible_inbetweenies. cbn [inbetweenies]. rewrite filter_app.
        intros Hn E. apply app_eq_nil in E as [E _]. contradiction.
Qed.

(** ** Crossing the threshold *)

Lemma is_int64_spec (z : Z) :
  is_int64 z = true <-> (- 2 ^ 63 <= z <= 2 ^ 63 - 1)%Z.
Proof.
  unfold is_int64, SMALLEST_INT64, LARGEST_INT64.
  rewrite andb_true_iff, !Z.leb_le. reflexivity.
Qed.

Lemma score_value_integer_affinity (r : Z) :
  score_value (integer_affinity r) = r.
Proof. unfold integer_affinity. destruct (_ && _); reflexivity. Qed.

(** A double of magnitude 2^53 or more keeps its sign and a magnitude of
    2^53 or more. *)
Lemma double_of_big (a : Z) :
  (2 ^ 53 <= Z.abs a)%Z ->
  exists m, (2 ^ 53 <= m)%Z /\ double_of a = (Z.sgn a * m)%Z.
Proof.
  intros H. unfold double_of.
  destruct (Z.abs a <? 2 ^ 53)%Z eqn:E; [apply Z.ltb_lt in E; lia|].
  cbv zeta.
  set (e := (Z.log2 (Z.abs a) - 52)%Z).
  set (q := (Z.abs a / 2 ^ e)%Z).
  match goal with
  | |- context [if ?c then (q + 1)%Z else q] =>
      set (q' := if c then (q + 1)%Z else q)
  end.
  exists (q' * 2 ^ e)%Z. split; [|reflexivity].
  assert (Hl : (53 <= Z.log2 (Z.abs a))%Z).
  { rewrite <- (Z.log2_pow2 53) by lia. apply Z.log2_le_mono. exact H. }
  assert (He : (1 <= e)%Z) by (subst e; lia).
  assert (Hp : (0 < 2 ^ e)%Z) by (apply Z.pow_pos_nonneg; lia).
  assert (Hq : (2 ^ 52 <= q)%Z).
  { subst q. apply Z.div_le_lower_bound; [exact Hp|].
    rewrite <- Z.pow_add_r by lia.
    replace (e + 52)%Z with (Z.log2 (Z.abs a)) by (subst e; lia).
    apply Z.log2_spec. lia. }
  assert (Hq' : (q <= q')%Z).
  { subst q'. match goal with |- context [if ?c then _ else _] =>
      destruct c end; lia. }
  assert (H2 : (2 ^ 1 <= 2 ^ e)%Z) by (apply Z.pow_le_mono_r; lia).
  change (2 ^ 1)%Z with 2%Z in H2.
  change (2 ^ 52)%Z with 4503599627370496%Z in Hq.
  change (2 ^ 53)%Z with 9007199254740992%Z.
  nia.
Qed.

Lemma double_of_small (a : Z) :
  (Z.abs a < 2 ^ 53)%Z -> double_of a = a.
Proof.
  intros H. unfold double_of. apply Z.ltb_lt in H. rewrite H. reflexivity.
Qed.

Lemma double_of_pos (a : Z) : (0 < a)%Z -> (0 < double_of a)%Z.
Proof.
  intros H. destruct (Z_lt_le_dec (Z.abs a) (2 ^ 53)) as [Hs|Hb].
  - rewrite double_of_small by exact Hs. exact H.
  - destruct (double_of_big a Hb) as [m [Hm ->]].
    rewrite Z.sgn_pos by exact H.
    change (2 ^ 53)%Z with 9007199254740992%Z in Hm. lia.
Qed.

Lemma double_of_neg (a : Z) : (a < 0)%Z -> (double_of a < 0)%Z.
Proof.
  intros H. destruct (Z_lt_le_dec (Z.abs a) (2 ^ 53)) as [Hs|Hb].
  - rewrite double_of_small by exact Hs. exact H.
  - destruct (double_of_big a Hb) as [m [Hm ->]].
    rewrite Z.sgn_neg by exact H.
    change (2 ^ 53)%Z with 9007199254740992%Z in Hm. lia.
Qed.

Lemma double_of_skipped (a : Z) :
  (a <= SKIP_SCORE)%Z -> (double_of a <= SKIP_SCORE)%Z.
Proof.
  unfold SKIP_SCORE. intros H.
  destruct (Z_lt_le_dec (Z.abs a) (2 ^ 53)) as [Hs|Hb].
  - rewrite double_of_small by exact Hs. exact H.
  - destruct (double_of_big a Hb) as [m [Hm ->]].
    rewrite Z.sgn_neg by lia.
    change (2 ^ 53)%Z with 9007199254740992%Z in Hm. lia.
Qed.

(** An addition that overflows to a double lands on the same side of
    [SKIP_SCORE] as the exact sum. *)
Lemma sql_add_skipped (z delta : Z) :
  is_int64 z = true -> is_int64 delta = true ->
  (score_value (sql_add (Integer z) delta) <= SKIP_SCORE)%Z <->
  (z + delta <= SKIP_SCORE)%Z.
Proof.
  intros Hz Hd. cbn [sql_add].
  destruct (is_int64 (z + delta)) eqn:E; [reflexivity|].
  rewrite score_value_integer_affinity.
  apply is_int64_spec in Hz, Hd.
  assert (E' : ~ (- 2 ^ 63 <= z + delta <= 2 ^ 63 - 1)%Z).
  { intros H. apply is_int64_spec in H. congruence. }
  change (2 ^ 63)%Z with 9223372036854775808%Z in *.
  destruct (Z_lt_le_dec 0 (z + delta)) as [Hp|Hn].
  - assert (H1 : (0 < double_of z)%Z) by (apply double_of_pos; lia).
    assert (H2 : (0 < double_of delta)%Z) by (apply double_of_pos; lia).
    assert (H3 : (0 < double_of (double_of z + double_of delta))%Z)
      by (apply double_of_pos; lia).
    unfold SKIP_SCORE. lia.
  - assert (H1 : (double_of z < 0)%Z) by (apply double_of_neg; lia).
    assert (H2 : (double_of delta < 0)%Z) by (apply double_of_neg; lia).
    assert (H3 : (double_of z <= SKIP_SCORE \/ double_of delta <= SKIP_SCORE)%Z).
    { destruct (Z_lt_le_dec z delta) as [Hl|Hl];
        [left|right]; apply double_of_skipped; unfold SKIP_SCORE; lia. }
    assert (H4 : (double_of (double_of z + double_of delta) <= SKIP_SCORE)%Z).
    { apply double_of_skipped. unfold SKIP_SCORE in *. lia. }
    unfold SKIP_SCORE in *. lia.
Qed.

(** The score decides eligibility at each vote.  In a store that respects I1,
    when [add_noun_score] leaves a fragment at a score of [SKIP_SCORE] or
    less, no random outcome draws that fragment any more; when it leaves it
    above [SKIP_SCORE], some random outcome draws it, with its new score.
    For a 64-bit integer score [z] the new score is at or below [SKIP_SCORE]
    exactly when [z + delta] is, also when the sum overflows to a double,
    and it is the integer [z + delta] when that fits 64 bits. *)
Theorem add_noun_score_threshold (p s : string) (delta : Z) (n : sql_number)
    (db : SnuskDb) :
  unique_fragments db -> score_of_noun p s db = Some n ->
  is_int64 delta = true ->
  ((score_value (sql_add n delta) <= SKIP_SCORE)%Z ->
   forall k x, noun_drawn k (snd (add_noun_score p s delta db)) x ->
               (prefix x, suffix x) <> (p, s)) /\
  ((SKIP_SCORE < score_value (sql_add n delta))%Z ->
   exists k, noun_drawn k (snd (add_noun_score p s delta db))
                       (Noun p s (sql_add n delta))) /\
  (forall z, n = Integer z -> is_int64 z = true ->
     ((score_value (sql_add n delta) <= SKIP_SCORE)%Z <->
      (z + delta <= SKIP_SCORE)%Z) /\
     (is_int64 (z + delta) = true -> sql_add n delta = Integer (z + delta))).
Proof.
  intros [Hu _] Hz Hd.
  assert (Hnew : score_of_noun p s (snd (add_noun_score p s delta db)) =
                 Some (sql_add n delta)).
  { rewrite add_noun_score_store, Hd.
    rewrite (score_of_noun_update delta p s db), Hz. reflexivity. }
  assert (Hu' : NoDup (map noun_key (nouns (snd (add_noun_score p s delta db))))).
  { rewrite (proj1 (add_noun_score_keys p s delta db)). exact Hu. }
  split; [|split].
  - intros Hle k x Hx E. apply noun_drawn_eligible in Hx as [Hin Hlt].
    apply (score_of_noun_In _ _ Hu') in Hin.
    inversion E; subst. rewrite Hnew in Hin. injection Hin as Hin.
    rewrite <- Hin in Hlt. lia.
  - intros Hlt. apply score_of_noun_Some_In in Hnew.
    apply In_row_at in Hnew as [i Hi].
    destruct (drawn_row_any eligible_noun _ i _ Hi) as [k [_ Hk]].
    { apply Z.ltb_lt. exact Hlt. }
    exists k. apply noun_drawn_iff. exact Hk.
  - intros z -> Hz0. split.
    + apply sql_add_skipped; assumption.
    + apply sql_add_int64.
Qed.

(** ** The command line *)

Lemma import_nouns_run_calls (l : list (string * string)) : forall db,
  import_nouns l db =
  (Ok tt, run_calls (map (fun ps => AddNoun (fst ps) (snd ps)) l) db).
Proof.
  induction l as [|[p s] l IH]; intros db; [reflexivity|].
  cbn [import_nouns map fst snd]. unfold run_calls. cbn [fold_left run_call].
  destruct (stored_noun_dec p s db) as [H|H].
  - rewrite add_noun_duplicate by exact H. apply IH.
  - rewrite add_noun_fresh by exact H. apply IH.
Qed.

Lemma import_inbetweenies_run_calls (l : list string) : forall db,
  import_inbetweenies l db = (Ok tt, run_calls (map AddInbetweeny l) db).
Proof.
  induction l as [|w l IH]; intros db; [reflexivity|].
  cbn [import_inbetweenies map]. unfold run_calls. cbn [fold_left run_call].
  destruct (stored_inbetweeny_dec w db) as [H|H].
  - rewrite add_inbetweeny_duplicate by exact H. apply IH.
  - rewrite add_inbetweeny_fresh by exact H. apply IH.
Qed.

Lemma import_nouns_stored (l : list (string * string)) : forall db,
  (forall p s, In (p, s) l -> stored_noun p s db) ->
  import_nouns l db = (Ok tt, db).
Proof.
  induction l as [|[p s] l IH]; intros db H; [reflexivity|].
  cbn [import_nouns]. rewrite add_noun_duplicate by (apply H; left; reflexivity).
  apply IH. intros p' s' Hin. apply H. right. exact Hin.
Qed.

Lemma import_inbetweenies_stored (l : list string) : forall db,
  (forall w, In w l -> stored_inbetweeny w db) ->
  import_inbetweenies l db = (Ok tt, db).
Proof.
  induction l as [|w l IH]; intros db H; [reflexivity|].
  cbn [import_inbetweenies].
  rewrite add_inbetweeny_duplicate by (apply H; left; reflexivity).
  apply IH. intros w' Hin. apply H. right. exact Hin.
Qed.

Lemma In_AddNoun_map (p s : string) (l : list (string * string)) :
  In (AddNoun p s) (map (fun ps => AddNoun (fst ps) (snd ps)) l) <->
  In (p, s) l.
Proof.
  rewrite in_map_iff. split.
  - intros [[p' s'] [E Hin]]. simpl in E. inversion E; subst. exact Hin.
  - intros Hin. exists (p, s). split; [reflexivity|exact Hin].
Qed.

Lemma In_AddInbetweeny_map (w : string) (l : list string) :
  In (AddInbetweeny w) (map AddInbetweeny l) <-> In w l.
Proof.
  rewrite in_map_iff. split.
  - intros [w' [E Hin]]. inversion E; subst. exact Hin.
  - intros Hin. exists w. split; [reflexivity|exact Hin].
Qed.

(** The import loops never raise and skip what is already stored: afterwards
    the stored fragments are those stored before and those of the list,
    importing the same list again changes nothing, and I1 is kept. *)
Theorem import_adds_missing_fragments (db : SnuskDb) :
  (forall l, exists db',
     import_nouns l db = (Ok tt, db') /\
     (forall p s, stored_noun p s db' <-> stored_noun p s db \/ In (p, s) l) /\
     inbetweenies db' = inbetweenies db /\
     import_nouns l db' = (Ok tt, db') /\
     (unique_fragments db -> unique_fragments db')) /\
  (forall l, exists db',
     import_inbetweenies l db = (Ok tt, db') /\
     (forall w, stored_inbetweeny w db' <-> stored_inbetweeny w db \/ In w l) /\
     nouns db' = nouns db /\
     import_inbetweenies l db' = (Ok tt, db') /\
     (unique_fragments db -> unique_fragments db')).
Proof.
  split.
  - intros l. eexists. split; [apply import_nouns_run_calls|].
    assert (Hst : forall p s,
      stored_noun p s
        (run_calls (map (fun ps => AddNoun (fst ps) (snd ps)) l) db) <->
      stored_noun p s db \/ In (p, s) l).
    { intros p s. rewrite stored_noun_run_calls, In_AddNoun_map. tauto. }
    split; [exact Hst|]. split; [|split].
    + clear Hst. revert db. unfold run_calls.
      induction l as [|[p s] l IH]; intros db; [reflexivity|].
      cbn [map fold_left fst snd]. rewrite IH. cbn [run_call].
      unfold add_noun.
      destruct (insert_into_nouns p s (nouns db)) as [t|[]]; reflexivity.
    + apply import_nouns_stored. intros p s Hin. apply Hst. right. exact Hin.
    + apply unique_fragments_run_calls.
  - intros l. eexists. split; [apply import_inbetweenies_run_calls|].
    assert (Hst : forall w,
      stored_inbetweeny w (run_calls (map AddInbetweeny l) db) <->
      stored_inbetweeny w db \/ In w l).
    { intros w. rewrite stored_inbetweeny_run_calls, In_AddInbetweeny_map.
      tauto. }
    split; [exact Hst|]. split; [|split].
    + clear Hst. revert db. unfold run_calls.
      induction l as [|w l IH]; intros db; [reflexivity|].
      cbn [map fold_left]. rewrite IH. cbn [run_call].
      unfold add_inbetweeny.
      destruct (insert_into_inbetweenies w (inbetweenies db)) as [t|[]];
        reflexivity.
    + apply import_inbetweenies_stored. intros w Hin. apply Hst. right.
      exact Hin.
    + apply unique_fragments_run_calls.
Qed.

Lemma _setup_result (db : SnuskDb) :
  _setup db =
  Ok (Db match nouns db with
         | [] => [Noun "frukt" "frukten" (Integer 0)]
         | _ :: _ => nouns db
         end
         match inbetweenies db with
         | [] => [Inbetweeny "i" (Integer 0)]
         | _ :: _ => inbetweenies db
         end).
Proof. destruct db as [[|n ns] [|i ibs]]; reflexivity. Qed.

Lemma import_nouns_appends (l : list (string * string)) : forall db,
  exists ln,
    import_nouns l db = (Ok tt, Db (nouns db ++ ln) (inbetweenies db)).
Proof.
  induction l as [|[p s] l IH]; intros db.
  - exists []. rewrite app_nil_r. destruct db; reflexivity.
  - cbn [import_nouns]. destruct (stored_noun_dec p s db) as [H|H].
    + rewrite add_noun_duplicate by exact H. apply IH.
    + rewrite add_noun_fresh by exact H.
      destruct (IH (Db (nouns db ++ [Noun p s (Integer 0)]) (inbetweenies db)))
        as [ln ->].
      cbn [nouns inbetweenies]. rewrite <- app_assoc. eexists. reflexivity.
Qed.

Lemma import_inbetweenies_appends (l : list string) : forall db,
  exists li,
    import_inbetweenies l db = (Ok tt, Db (nouns db) (inbetweenies db ++ li)).
Proof.
  induction l as [|w l IH]; intros db.
  - exists []. rewrite app_nil_r. destruct db; reflexivity.
  - cbn [import_inbetweenies]. destruct (stored_inbetweeny_dec w db) as [H|H].
    + rewrite add_inbetweeny_duplicate by exact H. apply IH.
    + rewrite add_inbetweeny_fresh by exact H.
      destruct (IH (Db (nouns db) (inbetweenies db ++ [Inbetweeny w (Integer 0)])))
        as [li ->].
      cbn [nouns inbetweenies]. rewrite <- app_assoc. eexists. reflexivity.
Qed.

Lemma filter_app_not_nil {A : Type} (f : A -> bool) (l l' : list A) :
  filter f l <> [] -> filter f (l ++ l') <> [].
Proof.
  rewrite filter_app. intros H E. apply app_eq_nil in E as [E _].
  contradiction.
Qed.

Lemma import_nouns_stores (l : list (string * string)) (db db' : SnuskDb) :
  import_nouns l db = (Ok tt, db') ->
  forall p s, In (p, s) l -> stored_noun p s db'.
Proof.
  rewrite import_nouns_run_calls. intros E p s Hin. inversion E.
  apply stored_noun_run_calls. right. apply In_AddNoun_map. exact Hin.
Qed.

Lemma import_inbetweenies_stores (l : list string) (db db' : SnuskDb) :
  import_inbetweenies l db = (Ok tt, db') ->
  forall w, In w l -> stored_inbetweeny w db'.
Proof.
  rewrite import_inbetweenies_run_calls. intros E w Hin. inversion E.
  apply stored_inbetweeny_run_calls. right. apply In_AddInbetweeny_map.
  exact Hin.
Qed.

(** The store that the command line composes from: the file after [_setup]
    and the two imports. *)
Lemma main_store (file : SnuskDb)
    (import_noun_json : option (list (string * string)))
    (import_inbetweeny_json : option (list string)) (rnd : main_random) :
  exists ln li db,
    _setup file = Ok db /\
    main file import_noun_json import_inbetweeny_json rnd =
    (print_examples rnd (Db (nouns db ++ ln) (inbetweenies db ++ li)),
     Db (nouns db ++ ln) (inbetweenies db ++ li)) /\
    (import_noun_json = None -> ln = []) /\
    (import_inbetweeny_json = None -> li = []) /\
    (forall l p s, import_noun_json = Some l -> In (p, s) l ->
       In (p, s) (map noun_key (nouns db ++ ln))) /\
    (forall l w, import_inbetweeny_json = Some l -> In w l ->
       In w (map inbetweeny (inbetweenies db ++ li))).
Proof.
  unfold main. rewrite _setup_result.
  set (db := Db _ _).
  assert (Hn : exists ln,
    match import_noun_json with
    | Some nouns => import_nouns nouns db
    | None => (Ok tt, db)
    end = (Ok tt, Db (nouns db ++ ln) (inbetweenies db)) /\
    (import_noun_json = None -> ln = []) /\
    (forall l p s, import_noun_json = Some l -> In (p, s) l ->
       In (p, s) (map noun_key (nouns db ++ ln)))).
  { destruct import_noun_json as [l|].
    - destruct (import_nouns_appends l db) as [ln E]. exists ln.
      split; [exact E|]. split; [discriminate|].
      intros l' p s El Hin. inversion El; subst l'.
      apply (import_nouns_stores l db _ E p s Hin).
    - exists []. rewrite app_nil_r. split; [destruct db; reflexivity|].
      split; [reflexivity|discriminate]. }
  destruct Hn as [ln [-> [Hn0 Hn1]]].
  set (db1 := Db (nouns db ++ ln) (inbetweenies db)).
  assert (Hi : exists li,
    match import_inbetweeny_json with
    | Some inbetweenies => import_inbetweenies inbetweenies db1
    | None => (Ok tt, db1)
    end = (Ok tt, Db (nouns db1) (inbetweenies db1 ++ li)) /\
    (import_inbetweeny_json = None -> li = []) /\
    (forall l w, import_inbetweeny_json = Some l -> In w l ->
       In w (map inbetweeny (inbetweenies db1 ++ li)))).
  { destruct import_inbetweeny_json as [l|].
    - destruct (import_inbetweenies_appends l db1) as [li E]. exists li.
      split; [exact E|]. split; [discriminate|].
      intros l' w El Hin. inversion El; subst l'.
      apply (import_inbetweenies_stores l db1 _ E w Hin).
    - exists []. rewrite app_nil_r. split; [destruct db1; reflexivity|].
      split; [reflexivity|discriminate]. }
  destruct Hi as [li [-> [Hi0 Hi1]]].
  exists ln, li, db. repeat split; assumption.
Qed.

(** On a database file whose tables are empty or hold an eligible row (a new
    file above all), the command line never fails: it prints the three
    compositions made from the store after the imports, and every imported
    fragment is stored.  On a file whose nouns all have a score of
    [SKIP_SCORE] or less it prints nothing and ends in [TypeError] when no
    noun is imported. *)
Theorem main_prints_three_lines (file : SnuskDb)
    (import_noun_json : option (list (string * string)))
    (import_inbetweeny_json : option (list string)) (rnd : main_random) :
  (nouns file = [] \/ eligible_nouns file <> [] ->
   inbetweenies file = [] \/ eligible_inbetweenies file <> [] ->
   exists l1 l2 l3 db,
     main file import_noun_json import_inbetweeny_json rnd =
       ([l1; l2; l3], Ok tt, db) /\
     snusk (rnd_snusk rnd) db = Ok l1 /\
     directed_snusk (rnd_directed rnd) (choice_directed rnd) db "raek" =
       Ok l2 /\
     example_snusk (rnd_example rnd) (choice_example rnd) db "don" "donet" =
       Ok l3 /\
     (forall l p s, import_noun_json = Some l -> In (p, s) l ->
                    stored_noun p s db) /\
     (forall l w, import_inbetweeny_json = Some l -> In w l ->
                  stored_inbetweeny w db)) /\
  (nouns file <> [] -> eligible_nouns file = [] -> import_noun_json = None ->
   exists db,
     main file import_noun_json import_inbetweeny_json rnd =
       ([], Raise TypeError, db)).
Proof.
  destruct (main_store file import_noun_json import_inbetweeny_json rnd)
    as [ln [li [db [Hs [Hm [Hn0 [Hi0 [Hn1 Hi1]]]]]]]].
  rewrite _setup_result in Hs. inversion Hs as [Hdb]. clear Hs.
  split.
  - intros Hn Hi.
    set (db2 := Db (nouns db ++ ln) (inbetweenies db ++ li)) in *.
    assert (En : eligible_nouns db2 <> []).
    { unfold eligible_nouns, db2. cbn [nouns]. apply filter_app_not_nil.
      subst db. cbn [nouns]. destruct (nouns file) as [|n ns] eqn:E.
      - discriminate.
      - destruct Hn as [Hn|Hn]; [discriminate|].
        unfold eligible_nouns in Hn. rewrite E in Hn. exact Hn. }
    assert (Ei : eligible_inbetweenies db2 <> []).
    { unfold eligible_inbetweenies, db2. cbn [inbetweenies].
      apply filter_app_not_nil.
      subst db. cbn [inbetweenies].
      destruct (inbetweenies file) as [|i ibs] eqn:E.
      - discriminate.
      - destruct Hi as [Hi|Hi]; [discriminate|].
        unfold eligible_inbetweenies in Hi. rewrite E in Hi. exact Hi. }
    destruct (_random_parts_total (rnd_snusk rnd) db2 En Ei)
      as [a1 [b1 [c1 [d1 [e1 [_ [_ [_ [_ [_ H1]]]]]]]]]].
    destruct (_random_parts_total (rnd_directed rnd) db2 En Ei)
      as [a2 [b2 [c2 [d2 [e2 [_ [_ [_ [_ [_ H2]]]]]]]]]].
    destruct (_random_parts_total (rnd_example rnd) db2 En Ei)
      as [a3 [b3 [c3 [d3 [e3 [_ [_ [_ [_ [_ H3]]]]]]]]]].
    assert (S1 : exists l1, snusk (rnd_snusk rnd) db2 = Ok l1).
    { unfold snusk. rewrite H1. eexists. reflexivity. }
    assert (S2 : exists l2,
      directed_snusk (rnd_directed rnd) (choice_directed rnd) db2 "raek" =
      Ok l2).
    { unfold directed_snusk. rewrite H2. cbn [bind].
      destruct (choice_directed_cases (choice_directed rnd))
        as [i [-> [-> | [-> | [-> | ->]]]]]; eexists; reflexivity. }
    assert (S3 : exists l3,
      example_snusk (rnd_example rnd) (choice_example rnd) db2 "don" "donet" =
      Ok l3).
    { unfold example_snusk. rewrite H3. cbn [bind].
      destruct (choice_two_cases (choice_example rnd) false true)
        as [-> | ->]; eexists; reflexivity. }
    destruct S1 as [l1 S1], S2 as [l2 S2], S3 as [l3 S3].
    exists l1, l2, l3, db2. rewrite Hm. unfold print_examples.
    rewrite S1, S2, S3. repeat split; try reflexivity.
    + intros l p s El Hin. apply (Hn1 l p s El Hin).
    + intros l w El Hin. apply (Hi1 l w El Hin).
  - intros Hne He Hnone. specialize (Hn0 Hnone). subst ln.
    rewrite app_nil_r in Hm. eexists. rewrite Hm. unfold print_examples, snusk.
    rewrite _random_parts_no_eligible; [reflexivity|].
    left. unfold eligible_nouns in *. cbn [nouns]. subst db. cbn [nouns].
    destruct (nouns file); [contradiction|exact He].
Qed.

(** ** The further properties at concrete stores *)

Lemma unique_fragments_invariant_witness :
  unique_fragments
    (run_calls [AddNoun "a" "b"; AddNoun "a" "b"; AddNounScore "a" "b" 2]
               fresh_db).
Proof.
  apply (unique_fragments_invariant empty_file fresh_db
           [AddNoun "a" "b"; AddNoun "a" "b"; AddNounScore "a" "b" 2]).
  - split; constructor.
  - reflexivity.
Defined.

Lemma rows_never_deleted_witness :
  stored_noun "frukt" "frukten"
    (run_calls [AddNoun "a" "b"; AddNounScore "frukt" "frukten" (-5)] fresh_db).
Proof.
  apply (proj1 (proj2 (proj2
           (rows_never_deleted fresh_db
              [AddNoun "a" "b"; AddNounScore "frukt" "frukten" (-5)])))).
  left. reflexivity.
Defined.

Lemma drawn_iff_eligible_witness :
  exists k, noun_drawn k db_two (Noun "don" "donet" (Integer 0)).
Proof.
  apply (proj2 (proj1 (drawn_iff_eligible db_two) (Noun "don" "donet" (Integer 0)))).
  split; [right; left; reflexivity|reflexivity].
Defined.

Lemma random_parts_single_eligible_witness :
  _random_parts (SqlRandom 3 1) db_don =
  Ok ["don"; "donet"; "i"; "don"; "donet"].
Proof.
  apply (random_parts_single_eligible (SqlRandom 3 1) db_don
           (Noun "don" "donet" (Integer 10))
           (Inbetweeny "i" (Integer 10))); reflexivity.
Defined.

Lemma compositions_succeed_or_raise_witness :
  taste upper_ascii no_random db_skipped = Raise TypeError /\
  exists out, nick no_random 1 db_two = Ok out.
Proof.
  split.
  - destruct (proj2 (compositions_succeed_or_raise upper_ascii no_random 0
                       db_skipped "raek" "don" "donet" "med"))
      as [_ [_ [H _]]]; [left; reflexivity|exact H].
  - destruct (proj1 (compositions_succeed_or_raise upper_ascii no_random 1
                       db_two "raek" "don" "donet" "med"))
      as [_ [_ [_ [H _]]]]; [discriminate|discriminate|exact H].
Defined.

Lemma nick_prefix_or_suffix_witness :
  exists x i,
    noun_drawn 0 db_two x /\ In x (eligible_nouns db_two) /\
    choice 1 [0; 1] = Ok i /\
    nick no_random 1 db_two = Ok (if i =? 0 then prefix x else suffix x).
Proof.
  apply (proj1 (nick_prefix_or_suffix no_random 1 db_two)); discriminate.
Defined.

Lemma example_snusk_with_inbetweeny_output_witness :
  example_snusk_with_inbetweeny no_random db_no_connector "med" =
  Raise TypeError.
Proof.
  apply (proj2 (example_snusk_with_inbetweeny_output no_random
                  db_no_connector "med")).
  reflexivity.
Defined.

Lemma directed_snusk_contains_target_witness :
  exists i out,
    choice 1 [0; 1; 3; 4] = Ok i /\
    directed_snusk no_random 1 db_two "sill" = Ok out /\
    contains "sill" out = true /\
    (i = 1 \/ i = 4 -> contains ("sill" ++ "ern") out = true).
Proof.
  apply (directed_snusk_contains_target no_random 1 db_two "sill");
    discriminate.
Defined.

Lemma example_snusk_contains_arguments_witness :
  exists out,
    example_snusk no_random 0 db_two "sill" "sillen" = Ok out /\
    contains "sill" out = true /\ contains "sillen" out = true.
Proof.
  apply (example_snusk_contains_arguments no_random 0 db_two "sill" "sillen");
    discriminate.
Defined.

Lemma taste_same_prefix_twice_witness :
  exists x,
    noun_drawn 0 db_two x /\ In x (eligible_nouns db_two) /\
    taste upper_ascii no_random db_two =
    Ok (upper_ascii (prefix x) ++ "/" ++ upper_ascii (prefix x))%string.
Proof.
  apply (proj1 (taste_same_prefix_twice upper_ascii no_random db_two));
    discriminate.
Defined.

Lemma add_noun_then_find_noun_witness :
  Permutation
    (find_noun "frukt" (snd (add_noun "frukt" "a" fresh_db)))
    (find_noun "frukt" fresh_db ++ [("frukt", "a")]) /\
  StronglySorted (fun a b => key_leb a b = true)
    (find_noun "frukt" (snd (add_noun "frukt" "a" fresh_db))) /\
  find_noun "frukt" (snd (add_noun "frukt" "a" fresh_db)) =
    [("frukt", "a"); ("frukt", "frukten")].
Proof.
  assert (H : ~ stored_noun "frukt" "a" fresh_db).
  { intros [H|[]]. discriminate H. }
  split; [|split].
  - apply (proj2 (proj2 (proj2 (proj2
             (add_noun_then_find_noun "frukt" "a" fresh_db)))) H "frukt").
  - apply (proj1 (proj2 (proj2 (proj2
             (add_noun_then_find_noun "frukt" "a" fresh_db)))) "frukt").
  - reflexivity.
Defined.

Lemma new_fragment_scores_zero_witness :
  score_of_noun "don" "donet" (snd (add_noun "don" "donet" fresh_db)) =
    Some (Integer 0) /\
  fst (add_noun_score "don" "donet" 5
         (snd (add_noun "don" "donet" fresh_db))) = Ok (Some (Integer 5)) /\
  exists k, noun_drawn k (snd (add_noun "don" "donet" fresh_db))
                      (Noun "don" "donet" (Integer 0)).
Proof.
  apply (proj1 (new_fragment_scores_zero fresh_db 5) "don" "donet").
  intros [H|[]]. discriminate H.
Defined.

Lemma add_score_changes_one_score_witness :
  score_of_noun "frukt" "frukten"
    (snd (add_noun_score "don" "donet" 5 db_two)) =
  score_of_noun "frukt" "frukten" db_two.
Proof.
  apply (proj2 (proj2 (proj2
           (proj1 (add_score_changes_one_score 5 db_two) "don" "donet")))).
  discriminate.
Defined.

Lemma add_keeps_existing_rows_witness :
  row_at 1 (nouns (snd (add_noun "don" "donet" fresh_db))) =
  Some (Noun "frukt" "frukten" (Integer 0)).
Proof.
  apply (proj1 (proj2 (proj1 (add_keeps_existing_rows fresh_db)
                         "don" "donet"))).
  reflexivity.
Defined.

Lemma add_score_cancels_and_commutes_witness :
  snd (add_noun_score "don" "donet" (- 5)
         (snd (add_noun_score "don" "donet" 5 db_two))) = db_two /\
  snd (add_noun_score "don" "donet" 2
         (snd (add_noun_score "don" "donet" (-7) db_two))) =
  snd (add_noun_score "don" "donet" (-7)
         (snd (add_noun_score "don" "donet" 2 db_two))).
Proof.
  assert (Hu : unique_fragments db_two).
  { apply unique_fragments_run_calls, unique_fragments_fresh_db. }
  split.
  - apply (proj1 (add_score_cancels_and_commutes db_two)
             "don" "donet" 0%Z 5%Z Hu); reflexivity.
  - apply (proj1 (proj2 (add_score_cancels_and_commutes db_two))
             "don" "donet" 0%Z (-7)%Z 2%Z Hu); reflexivity.
Defined.

Lemma add_noun_score_threshold_witness :
  (forall k x,
     noun_drawn k (snd (add_noun_score "frukt" "frukten" (-3) db_two)) x ->
     (prefix x, suffix x) <> ("frukt", "frukten")) /\
  (exists k,
     noun_drawn k (snd (add_noun_score "frukt" "frukten" (-2) db_two))
                (Noun "frukt" "frukten" (Integer (-2)))).
Proof.
  assert (Hu : unique_fragments db_two).
  { apply unique_fragments_run_calls, unique_fragments_fresh_db. }
  split.
  - apply (proj1 (add_noun_score_threshold "frukt" "frukten" (-3) (Integer 0)
                    db_two Hu eq_refl eq_refl)).
    vm_compute. discriminate.
  - apply (proj1 (proj2 (add_noun_score_threshold "frukt" "frukten" (-2)
                           (Integer 0) db_two Hu eq_refl eq_refl))).
    reflexivity.
Defined.

Lemma import_adds_missing_fragments_witness :
  exists db',
    import_nouns [("don", "donet"); ("frukt", "frukten"); ("don", "donet")]
      fresh_db = (Ok tt, db') /\
    unique_fragments db'.
Proof.
  destruct (proj1 (import_adds_missing_fragments fresh_db)
              [("don", "donet"); ("frukt", "frukten"); ("don", "donet")])
    as [db' [H [_ [_ [_ Hu]]]]].
  exists db'. split; [exact H|]. apply Hu. exact unique_fragments_fresh_db.
Defined.

Lemma main_prints_three_lines_witness :
  exists l1 l2 l3 db,
    main empty_file (Some [("don", "donet")]) None main_no_random =
      ([l1; l2; l3], Ok tt, db) /\
    snusk no_random db = Ok l1 /\
    directed_snusk no_random 0 db "raek" = Ok l2 /\
    example_snusk no_random 0 db "don" "donet" = Ok l3 /\
    (forall l p s, Some [("don", "donet")] = Some l -> In (p, s) l ->
                   stored_noun p s db) /\
    (forall l w, @None (list string) = Some l -> In w l ->
                 stored_inbetweeny w db).
Proof.
  apply (proj1 (main_prints_three_lines empty_file (Some [("don", "donet")])
                  None main_no_random)); left; reflexivity.
Defined.
